(** * dev-toolkit: a shallow embedding of the hooks and formatting utilities

    The model follows the layout of the repository:
    - [Js]              : the fragment of the JavaScript run time the code relies
                          on (completions, numbers, strings as UTF-16 code units);
    - [StringUtils]     : [typescript-utils/string-utils.ts];
    - [Words]           : the reference reading of "the words of a name";
    - [Eff]             : state passing with exceptions, for [try]/[catch];
    - [UseLocalStorage] : [react-hooks/use-local-storage.tsx];
    - [UseScroll]       : the scroll-threshold hook;
    - [Double]          : the double-precision arithmetic of the date code;
    - [DateUtils]       : [typescript-utils/date-utils.ts];
    - [NumberUtils]     : the number and currency formatters.

    Platform services that the repository only calls (case mapping, [Intl]
    formatting, [Date] parsing, [JSON], the storage quota) are section
    variables: every statement holds for whatever the host provides.
    [ScalarJson] and [EnUsHost] are two small hosts on which the code is run. *)

From Stdlib Require Import ZArith QArith Qround Qabs List Bool Lia.
From Stdlib Require Import Strings.String Strings.Ascii.
From Stdlib Require DecimalString DecimalZ DecimalPos.
From stdpp Require Import base option list strings gmap.

Set Default Proof Using "Type".

(** * The model *)

(** ** The JavaScript fragment *)

Module Js.

(** Errors that the modelled code can raise or meet. *)
Inductive JsError : Type :=
| Error (msg : string)          (* [new Error(msg)] *)
| TypeError                     (* property access on [undefined], cyclic JSON *)
| ReferenceError                (* [window] is not defined *)
| RangeError                    (* [Intl] rejects a locale or a digit count *)
| SyntaxError                   (* [JSON.parse] on malformed text *)
| DOMException (name : string). (* storage denied or over quota *)

(** The outcome of evaluating an expression: a value, or a thrown error. *)
Inductive Completion (A : Type) : Type :=
| Normal (a : A)
| Throw (e : JsError).
Arguments Normal {A} a.
Arguments Throw {A} e.

Definition bind {A B} (c : Completion A) (k : A -> Completion B) : Completion B :=
  match c with
  | Normal a => k a
  | Throw e => Throw e
  end.

Definition is_throw {A} (c : Completion A) : bool :=
  match c with Normal _ => false | Throw _ => true end.

(** A string is its sequence of UTF-16 code units. *)
Definition jsstring : Type := list N.

(** The code units of an ASCII literal. *)
Definition lit (s : string) : jsstring :=
  map N_of_ascii (list_ascii_of_string s).

(** [!s] for a string: only the empty string is falsy. *)
Definition falsy (s : jsstring) : bool :=
  match s with [] => true | _ :: _ => false end.

(** [s.charAt(0)]: the first code unit as a string, [""] when there is none. *)
Definition charAt0 (s : jsstring) : jsstring := take 1 s.

(** [s.slice(1)]. *)
Definition slice1 (s : jsstring) : jsstring := drop 1 s.

(** ECMAScript [WhiteSpace] and [LineTerminator] code units, the set that
    [String.prototype.trim] strips. *)
Definition isWhiteSpace (c : N) : bool :=
  ((9 <=? c) && (c <=? 13) || (c =? 32) || (c =? 160) || (c =? 5760)
   || (8192 <=? c) && (c <=? 8202) || (c =? 8232) || (c =? 8233)
   || (c =? 8239) || (c =? 8287) || (c =? 12288) || (c =? 65279))%N.

Fixpoint trimStart (s : jsstring) : jsstring :=
  match s with
  | [] => []
  | c :: r => if isWhiteSpace c then trimStart r else s
  end.

Fixpoint trimEnd (s : jsstring) : jsstring :=
  match s with
  | [] => []
  | c :: r =>
      match trimEnd r with
      | [] => if isWhiteSpace c then [] else [c]
      | r' => c :: r'
      end
  end.

(** [s.trim()]. *)
Definition trim (s : jsstring) : jsstring := trimEnd (trimStart s).

(** [s.split(sep)] for a separator of one code unit, as in [split("-")] and
    [split(" ")]: the result always has at least one segment. *)
Fixpoint split (sep : N) (s : jsstring) : list jsstring :=
  match s with
  | [] => [[]]
  | c :: r =>
      if (c =? sep)%N then [] :: split sep r
      else match split sep r with
           | w :: ws => (c :: w) :: ws
           | [] => [[c]]
           end
  end.

(** [ws.join(sep)]. *)
Fixpoint join (sep : jsstring) (ws : list jsstring) : jsstring :=
  match ws with
  | [] => []
  | [w] => w
  | w :: ws' => w ++ sep ++ join sep ws'
  end.

(** [ws.filter(Boolean)] on strings keeps the non-empty ones. *)
Definition filterBoolean (ws : list jsstring) : list jsstring :=
  List.filter (fun w => negb (falsy w)) ws.

(** [String.prototype.toUpperCase] restricted to ASCII letters, the instance
    used to run the examples; Unicode case mapping belongs to the host. *)
Definition asciiUpper (s : jsstring) : jsstring :=
  map (fun c => if ((97 <=? c) && (c <=? 122))%N then (c - 32)%N else c) s.

(** A number: not-a-number, an infinity, or a finite value. Finite doubles
    are rationals; the order on them is the order of the rationals. *)
Inductive JsNumber : Type :=
| NaN
| PosInf
| NegInf
| Finite (q : Q).

Definition isNaN (n : JsNumber) : bool :=
  match n with NaN => true | _ => false end.

(** [a > b] on numbers: false as soon as an operand is [NaN]. *)
Definition gt (a b : JsNumber) : bool :=
  match a, b with
  | NaN, _ | _, NaN => false
  | NegInf, _ => false
  | _, PosInf => false
  | PosInf, _ => true
  | Finite _, NegInf => true
  | Finite x, Finite y => negb (Qle_bool x y)
  end.

(** The integer as a number. *)
Definition num (z : Z) : JsNumber := Finite (inject_Z z).

(** The run-time values that a caller can pass where a number is expected. *)
Inductive JsValue : Type :=
| VUndefined
| VNull
| VBoolean (b : bool)
| VString (s : string)
| VNumber (n : JsNumber)
| VObject.

Definition hyphen : N := 45%N.
Definition space : N := 32%N.

End Js.

Import Js.

(** ** [typescript-utils/string-utils.ts] *)

Module StringUtils.
Section StringUtils.

(** The host's [String.prototype.toUpperCase]. *)
Variable toUpperCase : jsstring -> jsstring.

Definition capitalizeWord (word : jsstring) : jsstring :=
  toUpperCase (charAt0 word) ++ slice1 word.

Definition slugToString (slug : jsstring) : jsstring :=
  if falsy (trim slug) then slug
  else join [space] (map capitalizeWord (split hyphen slug)).

Definition capitalizeFirstLetter (str : jsstring) : jsstring :=
  if falsy str then str
  else toUpperCase (charAt0 str) ++ slice1 str.

(** [fullName.trim().split(" ").filter(Boolean)] *)
Definition splitedName (fullName : jsstring) : list jsstring :=
  filterBoolean (split space (trim fullName)).

(** [xs[i].charAt(0).toUpperCase()]: reading past the end of the array gives
    [undefined], and calling a method on it raises a [TypeError]. *)
Definition initialAt (xs : list jsstring) (i : nat) : Completion jsstring :=
  match xs !! i with
  | Some w => Normal (toUpperCase (charAt0 w))
  | None => Throw TypeError
  end.

Definition nameInitials (fullName : jsstring) : Completion jsstring :=
  let names := splitedName fullName in
  if (1 <? length names)%nat then
    bind (initialAt names 0) (fun firstInitial =>
    bind (initialAt names (length names - 1)) (fun lastInitial =>
    Normal (firstInitial ++ lastInitial)))
  else
    initialAt names 0.

End StringUtils.
End StringUtils.

(** ** Reference reading of "split into words" *)

Module Words.

(** The maximal runs of code units that are not separators, in order. *)
Fixpoint fieldsBy (isSep : N -> bool) (s : jsstring) : list jsstring :=
  match s with
  | [] => []
  | c :: r =>
      if isSep c then fieldsBy isSep r
      else match r with
           | [] => [[c]]
           | c' :: _ =>
               if isSep c' then [c] :: fieldsBy isSep r
               else match fieldsBy isSep r with
                    | w :: ws => (c :: w) :: ws
                    | [] => [[c]]
                    end
           end
  end.

Definition isSpace (c : N) : bool := (c =? space)%N.

(** The initials of a list of words: nothing for no word, one initial for
    one word, the initials of the first and the last word otherwise. *)
Definition initialsOf (up : jsstring -> jsstring) (ws : list jsstring)
  : option jsstring :=
  match ws with
  | [] => None
  | [w] => Some (up (charAt0 w))
  | w :: rest => Some (up (charAt0 w) ++ up (charAt0 (List.last rest [])))
  end.

(** The specification's reading of [nameInitials]: words are separated by
    any white space. *)
Definition spec_nameInitials (up : jsstring -> jsstring) (fullName : jsstring)
  : option jsstring :=
  initialsOf up (fieldsBy isWhiteSpace (trim fullName)).

(** "John<TAB>Doe" *)
Definition john_tab_doe : jsstring :=
  [74; 111; 104; 110; 9; 68; 111; 101]%N.

End Words.

Import Words.

(** ** Effects: state passing with exceptions *)

Module Eff.

(** A computation over a state [S]: it ends with a value or a thrown error,
    and the state reached by then (what was done before a throw stays done). *)
Definition M (S A : Type) : Type := S -> Completion A * S.

Definition ret {S A} (a : A) : M S A := fun s => (Normal a, s).

Definition throw {S A} (e : JsError) : M S A := fun s => (Throw e, s).

Definition mbind {S A B} (c : M S A) (k : A -> M S B) : M S B :=
  fun s =>
    match c s with
    | (Normal a, s') => k a s'
    | (Throw e, s') => (Throw e, s')
    end.

(** [try { body } catch (error) { handler(error) }] *)
Definition try_catch {S A} (body : M S A) (handler : JsError -> M S A) : M S A :=
  fun s =>
    match body s with
    | (Normal a, s') => (Normal a, s')
    | (Throw e, s') => handler e s'
    end.

Definition get {S} : M S S := fun s => (Normal s, s).

Definition modify {S} (f : S -> S) : M S unit := fun s => (Normal tt, f s).

(** Run a computation on the second component of a pair of states. *)
Definition on_snd {S1 S2 A} (c : M S2 A) : M (S1 * S2) A :=
  fun s =>
    match c (snd s) with
    | (r, s2) => (r, (fst s, s2))
    end.

End Eff.

Import Eff.

Declare Scope eff_scope.
Delimit Scope eff_scope with eff.
Notation "x <- c ;; k" := (mbind c (fun x => k))
  (at level 100, c at next level, right associativity) : eff_scope.

(** ** [react-hooks/use-local-storage.tsx] *)

Module UseLocalStorage.
Section UseLocalStorage.

(** The type of the persisted value. *)
Context {T : Type}.

(** The text that [window.localStorage.setItem] receives for a value, that is
    [JSON.stringify] followed by the conversion to a string that [setItem]
    applies; [None] when [JSON.stringify] throws (a cyclic structure, a
    [BigInt]). *)
Variable JSON_stringify : T -> option string.

(** [JSON.parse]; [None] when it throws a [SyntaxError]. *)
Variable JSON_parse : string -> option T.

(** Whether the storage area, holding the given items, takes one more write
    of a key and a text; otherwise [setItem] throws [QuotaExceededError]. *)
Variable accepts : gmap string string -> string -> string -> bool.

(** What the hook does to its surroundings, in order. *)
Inductive Event : Type :=
| GetItem (key : string)
| Parse (text : string)
| Stringify (v : T)
| SetItem (key text : string)
| SetState (v : T)
| Warn (msg : string) (error : JsError).

(** The browser: the error that any access to [window.localStorage] raises,
    if it raises one (there is no [window] during server rendering, and a
    user agent may deny the storage), the items of the storage, and the trace
    of what has happened so far. *)
Record Browser : Type := mkBrowser {
  blocked : option JsError;
  items : gmap string string;
  trace : list Event
}.

(** The browser after some more events. *)
Definition after (b : Browser) (evs : list Event) : Browser :=
  mkBrowser (blocked b) (items b) (trace b ++ evs).

Definition log (ev : Event) : M Browser unit :=
  modify (fun b => mkBrowser (blocked b) (items b) (trace b ++ [ev])).

Definition localStorage_getItem (key : string) : M Browser (option string) :=
  (_ <- log (GetItem key) ;;
   b <- get ;;
   match blocked b with
   | None => ret (items b !! key)
   | Some error => throw error
   end)%eff.

Definition localStorage_setItem (key text : string) : M Browser unit :=
  (_ <- log (SetItem key text) ;;
   b <- get ;;
   match blocked b with
   | None =>
       if accepts (items b) key text then
         modify (fun b => mkBrowser (blocked b) (<[key := text]> (items b)) (trace b))
       else throw (DOMException "QuotaExceededError")
   | Some error => throw error
   end)%eff.

(** The write of a text under a key goes through: the storage can be reached
    and takes the write. *)
Definition writable (b : Browser) (key text : string) : bool :=
  match blocked b with
  | None => accepts (items b) key text
  | Some _ => false
  end.

(** [window.localStorage]: reaching the storage object is what raises when
    there is no [window] or the user agent denies the storage. *)
Definition window_localStorage : M Browser unit :=
  (b <- get ;;
   match blocked b with
   | None => ret tt
   | Some error => throw error
   end)%eff.

Definition parse (text : string) : M Browser T :=
  (_ <- log (Parse text) ;;
   match JSON_parse text with
   | Some v => ret v
   | None => throw SyntaxError
   end)%eff.

Definition stringify (v : T) : M Browser string :=
  (_ <- log (Stringify v) ;;
   match JSON_stringify v with
   | Some text => ret text
   | None => throw TypeError
   end)%eff.

Definition console_warn (msg : string) (error : JsError) : M Browser unit :=
  log (Warn msg error).

(** The condition of [item ? ... : ...]: [null] and the empty string are
    falsy, every other string is truthy. *)
Definition truthy (item : option string) : option string :=
  match item with
  | Some text => if String.eqb text "" then None else Some text
  | None => None
  end.

Definition readMessage (key : string) : string :=
  "Error reading localStorage key “" ++ key ++ "”:".

Definition setMessage (key : string) : string :=
  "Error setting localStorage key “" ++ key ++ "”:".

Section Hook.

Variable key : string.
Variable initialValue : T.

Definition readValue : M Browser T :=
  try_catch
    (item <- localStorage_getItem key ;;
     match truthy item with
     | Some text => parse text
     | None => ret initialValue
     end)%eff
    (fun error =>
       _ <- console_warn (readMessage key) error ;;
       ret initialValue)%eff.

(** The argument of the setter: a value, or a function of the previous one. *)
Inductive SetStateAction : Type :=
| Value (v : T)
| Update (f : T -> T).

(** [value instanceof Function ? value(storedValue) : value] *)
Definition valueToStore (value : SetStateAction) (storedValue : T) : T :=
  match value with
  | Update f => f storedValue
  | Value v => v
  end.

(** The state of a mounted hook is the cell [storedValue] together with the
    browser. *)
Definition setStoredValue (v : T) : M (T * Browser) unit :=
  (_ <- on_snd (log (SetState v)) ;;
   modify (fun s => (v, snd s)))%eff.

(** The setter that a render returns. [storedValue] is the state that this
    render saw: the setter keeps it, and a function passed to the setter is
    applied to it, not to the cell as it is when the setter runs. In
    [window.localStorage.setItem(key, JSON.stringify(valueToStore))] the
    storage object is reached first, then the argument is evaluated, then
    [setItem] is called. *)
Definition setValue (storedValue : T) (value : SetStateAction)
    : M (T * Browser) unit :=
  try_catch
    (let valueToStore := valueToStore value storedValue in
     _ <- setStoredValue valueToStore ;;
     _ <- on_snd window_localStorage ;;
     text <- on_snd (stringify valueToStore) ;;
     on_snd (localStorage_setItem key text))%eff
    (fun error => on_snd (console_warn (setMessage key) error)).

(** One render of the hook on the cell: [return [storedValue, setValue]]. *)
Definition useLocalStorage (cell : T)
    : T * (SetStateAction -> M (T * Browser) unit) :=
  (cell, setValue cell).

(** [useState(readValue)]: the first render computes the initial state. *)
Definition mount (b : Browser) : Completion T * Browser := readValue b.

(** The listener for the [storage] event, registered on mount. *)
Definition handleStorage (eventKey : option string) : M (T * Browser) unit :=
  if decide (eventKey = Some key) then
    (v <- on_snd readValue ;; setStoredValue v)%eff
  else ret tt.

End Hook.
End UseLocalStorage.
End UseLocalStorage.

(** ** A host instance: JSON on scalars

    The instance of the host's [JSON] and storage quota on which the hook is
    run below: the values are [null], the booleans and the integers, written
    as JSON writes them. *)

Module ScalarJson.

Inductive value : Type :=
| JNull
| JBool (b : bool)
| JNum (z : Z).

Definition numeral (z : Z) : string :=
  DecimalString.NilZero.string_of_int (Z.to_int z).

Definition stringify (v : value) : option string :=
  Some match v with
       | JNull => "null"
       | JBool true => "true"
       | JBool false => "false"
       | JNum z => numeral z
       end.

(** A JSON integer has no leading zero; ["-0"] is the one numeral that is not
    the output of [numeral] and still read as a number. *)
Definition parse (text : string) : option value :=
  match DecimalString.NilZero.int_of_string text with
  | Some d =>
      let z := Z.of_int d in
      if String.eqb (numeral z) text || String.eqb text "-0" then Some (JNum z)
      else None
  | None =>
      if String.eqb text "null" then Some JNull
      else if String.eqb text "true" then Some (JBool true)
      else if String.eqb text "false" then Some (JBool false)
      else None
  end.

(** A storage area that takes texts of at most sixteen characters. *)
Definition accepts (_ : gmap string string) (_ text : string) : bool :=
  (String.length text <=? 16)%nat.

(** A browser with an empty, reachable store. *)
Definition fresh : @UseLocalStorage.Browser value :=
  UseLocalStorage.mkBrowser None ∅ [].

(** A browser whose store holds the given text under ["count"]. *)
Definition holding (text : string) : @UseLocalStorage.Browser value :=
  UseLocalStorage.mkBrowser None {["count" := text]} [].

End ScalarJson.

(** ** The scroll-threshold hook *)

Module UseScroll.

(** A mounted hook: the state cell [scrolled], and the threshold that the
    [onScroll] callback registered on the window was created with ([None]
    once the listener has been removed). *)
Record Hook : Type := mkHook {
  scrolled : bool;
  listener : option JsNumber
}.

(** The page: the vertical offset [window.scrollY] and the hook. *)
Record Page : Type := mkPage {
  scrollY : JsNumber;
  hook : Hook
}.

(** [setScrolled(window.scrollY > threshold)] *)
Definition onScroll (threshold : JsNumber) (p : Page) : Page :=
  mkPage (scrollY p) (mkHook (gt (scrollY p) threshold) (listener (hook p))).

(** First render and its effect: [useState(false)], then the listener is
    registered. The offset of the page is not read. *)
Definition mount (threshold : JsNumber) (offset : JsNumber) : Page :=
  mkPage offset (mkHook false (Some threshold)).

(** What happens to a mounted hook. *)
Inductive Action : Type :=
| Scroll (offset : JsNumber)         (* the page scrolls, the event fires *)
| Rerender (threshold : JsNumber)    (* the component passes a threshold *)
| Unmount.

Definition step (p : Page) (a : Action) : Page :=
  match a with
  | Scroll offset =>
      let p' := mkPage offset (hook p) in
      match listener (hook p) with
      | Some threshold => onScroll threshold p'
      | None => p'
      end
  | Rerender threshold =>
      (* the effect's cleanup removes the old listener, the effect adds the
         new one; the state cell is kept *)
      match listener (hook p) with
      | Some _ => mkPage (scrollY p) (mkHook (scrolled (hook p)) (Some threshold))
      | None => p
      end
  | Unmount => mkPage (scrollY p) (mkHook (scrolled (hook p)) None)
  end.

Definition run (p : Page) (acts : list Action) : Page := fold_left step acts p.

(** The hook is active while its listener is registered. *)
Definition active (p : Page) : bool :=
  match listener (hook p) with Some _ => true | None => false end.

(** The value that [useScroll] returns to the component. *)
Definition useScroll (p : Page) : bool := scrolled (hook p).

End UseScroll.

(** ** Double-precision arithmetic on integers

    JavaScript numbers are IEEE 754 doubles: 53 significant bits, every
    result rounded to the nearest double, ties to the even significand. The
    date code subtracts two time values and takes floors of quotients by
    constants. Its operands are integers that are doubles (time values lie
    within 8.64e15 < 2^53), so the operations are given on integers, each with
    the rounding of its result. No result here is large or small enough to
    overflow or to be subnormal. *)

Module Double.

(** The integer nearest to [n / d], the even one of two that are equally
    near ([0 <= n], [0 < d]). *)
Definition nearestEven (n d : Z) : Z :=
  let q := (n / d)%Z in
  let r := (n mod d)%Z in
  if (2 * r <? d)%Z then q
  else if (d <? 2 * r)%Z then (q + 1)%Z
  else if Z.even q then q else (q + 1)%Z.

(** The double nearest to a natural number: itself up to 2^53, and beyond
    that a multiple of the spacing of the doubles of its size. *)
Definition roundNat (x : Z) : Z :=
  if (x <? 2 ^ 53)%Z then x
  else
    let ulp := (2 ^ (Z.log2 x - 52))%Z in
    (nearestEven x ulp * ulp)%Z.

(** [a - b] on doubles with integer values. *)
Definition sub (a b : Z) : Z :=
  (Z.sgn (a - b) * roundNat (Z.abs (a - b)))%Z.

(** [2^e <= a / b], for positive [a] and [b]. *)
Definition atLeastPow (a b e : Z) : bool :=
  if (0 <=? e)%Z then (b * 2 ^ e <=? a)%Z else (b <=? a * 2 ^ (- e))%Z.

(** The binary exponent of the quotient of two positive integers: the [e]
    with [2^e <= a / b < 2^(e+1)]. *)
Definition exponent (a b : Z) : Z :=
  let e0 := (Z.log2 a - Z.log2 b)%Z in
  if atLeastPow a b e0 then e0 else (e0 - 1)%Z.

(** [Math.floor(a / b)] for doubles [0 <= a] and [0 < b] with integer values:
    the quotient is rounded to 53 significant bits before the floor. *)
Definition floorDiv (a b : Z) : Z :=
  if (a =? 0)%Z then 0%Z
  else
    let e := exponent a b in
    if (e <=? 52)%Z then
      (nearestEven (a * 2 ^ (52 - e)) b / 2 ^ (52 - e))%Z
    else
      (nearestEven a (b * 2 ^ (e - 52)) * 2 ^ (e - 52))%Z.

End Double.

(** ** [typescript-utils/date-utils.ts] *)

Module DateUtils.

(** A [Date] object is its time value: milliseconds since the epoch, or
    [None] for the invalid date, whose [getTime()] is [NaN]. The time value
    of a valid date is an integer within 8.64e15 of zero, hence a double. *)
Definition JsDate : Type := option Z.

(** What the functions accept: a [Date], a string, or a number. *)
Inductive DateInput : Type :=
| DateObject (d : JsDate)
| DateString (s : string)
| DateNumber (n : JsNumber).

(** The fields of [Intl.DateTimeFormatOptions] that the code sets. *)
Record DateTimeFormatOptions : Type := mkOptions {
  year : option string;
  month : option string;
  day : option string;
  hour : option string;
  minute : option string;
  second : option string;
  timeZone : option string;
  hour12 : option bool
}.

Definition noOptions : DateTimeFormatOptions :=
  mkOptions None None None None None None None None.

(** Rounding toward zero. *)
Definition truncate (q : Q) : Z :=
  if Qle_bool 0 q then Qfloor q else Qceiling q.

(** [TimeClip]: the time value of [new Date(n)] for a number. *)
Definition TimeClip (n : JsNumber) : JsDate :=
  match n with
  | Finite q =>
      if Qle_bool (Qabs q) (inject_Z 8640000000000000) then Some (truncate q)
      else None
  | _ => None
  end.

(** The error of the five functions. *)
Definition invalidDate : JsError := Error "Invalid date input".

(** The result of [timeDifference]. *)
Record Difference : Type := mkDifference {
  days : Z;
  hours : Z;
  minutes : Z;
  seconds : Z
}.

Section DateUtils.

(** [Date.parse], the host's reading of a date string; [None] for [NaN]. *)
Variable Date_parse : string -> JsDate.

(** The host's formatters. On the invalid date they return a sentinel text
    (["Invalid Date"]) instead of raising; [None] stands for the [RangeError]
    with which [Intl] refuses a locale or an option. *)
Variable toLocaleDateString : JsDate -> string -> DateTimeFormatOptions -> option string.
Variable toLocaleTimeString : JsDate -> string -> DateTimeFormatOptions -> option string.
Variable toLocaleString : JsDate -> string -> DateTimeFormatOptions -> option string.

(** [Date.prototype.toISOString] on a valid time value. *)
Variable toISOString : Z -> string.

(** [new Date(value)] *)
Definition new_Date (value : DateInput) : JsDate :=
  match value with
  | DateObject d => d
  | DateString s => Date_parse s
  | DateNumber n => TimeClip n
  end.

(** [isNaN(d.getTime())] *)
Definition isInvalid (d : JsDate) : bool :=
  match d with Some _ => false | None => true end.

Definition formatted (r : option string) : Completion string :=
  match r with
  | Some text => Normal text
  | None => Throw RangeError
  end.

Definition formatDate (dateInput : DateInput) (locale : option string)
    (options : option DateTimeFormatOptions) : Completion string :=
  let locale := default "en-IN" locale in
  let options :=
    default (mkOptions (Some "numeric") (Some "long") (Some "2-digit")
               None None None None None) options in
  let d := new_Date dateInput in
  if isInvalid d then Throw invalidDate
  else formatted (toLocaleDateString d locale options).

Definition formatTime (date : DateInput) (options : option DateTimeFormatOptions)
    (locale : option string) : Completion string :=
  let options :=
    default (mkOptions None None None (Some "2-digit") (Some "2-digit")
               None None None) options in
  let locale := default "en-IN" locale in
  let d := new_Date date in
  if isInvalid d then Throw invalidDate
  else formatted (toLocaleTimeString d locale options).

Definition formatDateTimeToLocale (dateInput : DateInput) (locale : option string)
    (options : option DateTimeFormatOptions) : Completion string :=
  let locale := default "en-IN" locale in
  let options :=
    default (mkOptions (Some "numeric") (Some "long") (Some "numeric")
               (Some "2-digit") (Some "2-digit") (Some "2-digit") None None)
      options in
  let date := new_Date dateInput in
  if isInvalid date then Throw invalidDate
  else formatted (toLocaleString date locale options).

Inductive UTCFormat : Type := iso | readable.

Definition constructUTCFormat (dateInput : DateInput) (format : option UTCFormat)
    (locale : option string) : Completion string :=
  let format := default iso format in
  let locale := default "en-IN" locale in
  let date := new_Date dateInput in
  match date with
  | None => Throw invalidDate
  | Some t =>
      match format with
      | iso => Normal (toISOString t)
      | readable =>
          formatted
            (toLocaleString date locale
               (mkOptions (Some "numeric") (Some "short") (Some "2-digit")
                  (Some "2-digit") (Some "2-digit") (Some "2-digit")
                  (Some "UTC") (Some false)))
      end
  end.

Definition timeDifference (date1 date2 : DateInput) : Completion Difference :=
  let date1 := match date1 with DateObject d => d | _ => new_Date date1 end in
  let date2 := match date2 with DateObject d => d | _ => new_Date date2 end in
  match date1, date2 with
  | Some t1, Some t2 =>
      (* the subtraction and the divisions are those of doubles; [%] on
         doubles is exact *)
      let diff := Z.abs (Double.sub t1 t2) in
      let days := Double.floorDiv diff (1000 * 60 * 60 * 24) in
      let hours :=
        Double.floorDiv (Z.rem diff (1000 * 60 * 60 * 24)) (1000 * 60 * 60) in
      let minutes := Double.floorDiv (Z.rem diff (1000 * 60 * 60)) (1000 * 60) in
      let seconds := Double.floorDiv (Z.rem diff (1000 * 60)) 1000 in
      Normal (mkDifference days hours minutes seconds)
  | _, _ => Throw invalidDate
  end.

End DateUtils.
End DateUtils.

(** ** The number and currency formatters *)

Module NumberUtils.

(** The fields of [Intl.NumberFormatOptions] that the code sets. *)
Record NumberFormatOptions : Type := mkNumberOptions {
  style : option string;
  currency : option string;
  minimumFractionDigits : option JsNumber;
  maximumFractionDigits : option JsNumber
}.

(** The argument of [formatCurrency]. *)
Record FormatCurrencyOptions : Type := mkCurrencyOptions {
  locale : option string;
  minimumFractionDigitsOpt : option JsNumber;
  maximumFractionDigitsOpt : option JsNumber
}.

Section NumberUtils.

(** The host's number formatting, [new Intl.NumberFormat(locales, options)
    .format(n)], which is also what [n.toLocaleString(locales, options)]
    does; [None] stands for the [RangeError] with which it refuses a locale,
    a currency or a digit count. *)
Variable Intl_format : option string -> NumberFormatOptions -> JsNumber -> option string.

Definition rendered (r : option string) : Completion string :=
  match r with
  | Some text => Normal text
  | None => Throw RangeError
  end.

Definition formatCurrency (amount : JsNumber) (currency : option string)
    (options : option FormatCurrencyOptions) : Completion string :=
  let currency := default "INR" currency in
  let options := default (mkCurrencyOptions None None None) options in
  let locale := default "en-IN" (locale options) in
  let minimumFractionDigits := default (num 2) (minimumFractionDigitsOpt options) in
  let maximumFractionDigits := default (num 2) (maximumFractionDigitsOpt options) in
  rendered
    (Intl_format (Some locale)
       (mkNumberOptions (Some "currency") (Some currency)
          (Some minimumFractionDigits) (Some maximumFractionDigits))
       amount).

Definition formatDecimal (num : JsValue) (decimals : option JsNumber)
    : Completion string :=
  let decimals := default (Js.num 2) decimals in
  match num with
  | VNumber n =>
      if isNaN n then Normal ""
      else rendered
             (Intl_format None
                (mkNumberOptions None None (Some decimals) (Some decimals)) n)
  | _ => Normal ""
  end.

Definition formatNumber (n : JsNumber) (locale : option string)
    : Completion string :=
  let locale := default "en-US" locale in
  rendered (Intl_format (Some locale) (mkNumberOptions None None None None) n).

(** The run-time test of [formatDecimal]: a value of type number that is not
    [NaN]. *)
Definition validNumber (v : JsValue) : bool :=
  match v with
  | VNumber n => negb (isNaN n)
  | _ => false
  end.

End NumberUtils.
End NumberUtils.

(** ** A host instance: decimal formatting in the style of [en-US]

    The instance of [Intl] on which [formatDecimal] is run below. It knows one
    locale and the decimal style only: digits grouped by three with commas,
    a point before the fraction, rounding to the nearest with ties away from
    zero, and a [RangeError] for a digit count outside 0..100. *)

Module EnUsHost.

Import NumberUtils.

(** [DefaultNumberOption]: a digit count, or [None] for a [RangeError]. *)
Definition digitCount (d : JsNumber) : option nat :=
  match d with
  | Finite q =>
      if Qle_bool 0 q && Qle_bool q (inject_Z 100) then Some (Z.to_nat (Qfloor q))
      else None
  | _ => None
  end.

Definition digitsOf (z : Z) : list ascii :=
  list_ascii_of_string (ScalarJson.numeral z).

(** The character of a decimal digit. *)
Definition digitChar (d : Z) : ascii :=
  match Z.to_nat d with
  | 0 => "0" | 1 => "1" | 2 => "2" | 3 => "3" | 4 => "4"
  | 5 => "5" | 6 => "6" | 7 => "7" | 8 => "8" | _ => "9"
  end%nat%char.

(** The fraction digits of [z], on exactly [width] places. *)
Fixpoint fraction (width : nat) (z : Z) : list ascii :=
  match width with
  | O => []
  | S w => fraction w (z / 10)%Z ++ [digitChar (z mod 10)%Z]
  end.

(** Commas between groups of three, on the digits in reverse order. *)
Fixpoint group3 (rev_digits : list ascii) : list ascii :=
  match rev_digits with
  | a :: b :: c :: ((_ :: _) as rest) => a :: b :: c :: ","%char :: group3 rest
  | _ => rev_digits
  end.

(** Trailing zeros are dropped while more than [keep] places remain; the
    places are given in reverse order. *)
Fixpoint dropZeros (keep : nat) (rev_places : list ascii) : list ascii :=
  match rev_places with
  | c :: r =>
      if (keep <? length rev_places)%nat && Ascii.eqb c "0" then dropZeros keep r
      else rev_places
  | [] => []
  end.

Definition fixed (q : Q) (lo hi : nat) : string :=
  let scale := (10 ^ Z.of_nat hi)%Z in
  let scaled := Qfloor (Qabs q * inject_Z scale + (1 # 2)) in
  let whole := rev (group3 (rev (digitsOf (scaled / scale)%Z))) in
  let places := rev (dropZeros lo (rev (fraction hi (scaled mod scale)%Z))) in
  string_of_list_ascii
    ((if Qle_bool 0 q then [] else ["-"%char])
     ++ whole
     ++ match places with [] => [] | _ => "."%char :: places end).

Definition format (_ : option string) (o : NumberFormatOptions) (n : JsNumber)
    : option string :=
  match digitCount (default (num 0) (minimumFractionDigits o)) with
  | None => None
  | Some lo =>
      match digitCount (default (num (Z.of_nat (Nat.max lo 3)))
                          (maximumFractionDigits o)) with
      | None => None
      | Some hi =>
          if (hi <? lo)%nat then None
          else Some match n with
                    | NaN => "NaN"
                    | PosInf => "∞"
                    | NegInf => "-∞"
                    | Finite q => fixed q lo hi
                    end
      end
  end.

(** The number of characters after the decimal point of a text, none when
    there is no point: the fraction digits that a text of this locale shows. *)
Fixpoint afterPoint (cs : list ascii) : option nat :=
  match cs with
  | [] => None
  | c :: r => if Ascii.eqb c "." then Some (length r) else afterPoint r
  end.

Definition fractionDigits (text : string) : nat :=
  default 0%nat (afterPoint (list_ascii_of_string text)).

(** No character of the text is a decimal point. *)
Definition pointFree (cs : list ascii) : bool :=
  forallb (fun c => negb (Ascii.eqb c ".")) cs.

End EnUsHost.

(** ** Strings free of a code unit *)

Module Segments.

(** No code unit of the string is [c]. *)
Definition freeOf (c : N) (w : jsstring) : bool :=
  forallb (fun x => negb (x =? c)%N) w.

(** No code unit of the string is white space. *)
Definition solid (w : jsstring) : bool :=
  forallb (fun x => negb (isWhiteSpace x)) w.

End Segments.

Import Segments.

(** ** What the store holds for a key *)

Module Stored.
Section Stored.

Import UseLocalStorage.

Context {T : Type}.
Variable JSON_parse : string -> option T.

(** What a read of the key returns, as a function of the storage alone: the
    deserialized text if there is a non-empty text that deserializes, and the
    initial value otherwise. *)
Definition stored (key : string) (v0 : T) (b : @Browser T) : T :=
  match blocked b with
  | Some _ => v0
  | None =>
      match truthy (items b !! key) with
      | Some text => default v0 (JSON_parse text)
      | None => v0
      end
  end.

End Stored.
End Stored.

(** * Properties *)

(** ** Facts about trimming and splitting *)

Section StringFacts.

Lemma split_nonempty sep s : split sep s <> [].
Proof.
  destruct s as [|c r]; simpl; [discriminate|].
  destruct (c =? sep)%N; [discriminate|].
  destruct (split sep r); discriminate.
Qed.

Lemma filterBoolean_split sep s :
  filterBoolean (split sep s) = fieldsBy (fun c => (c =? sep)%N) s.
Proof.
  induction s as [|c r IH]; [reflexivity|].
  simpl. destruct (c =? sep)%N eqn:Ec; [exact IH|].
  destruct r as [|c' r'].
  - reflexivity.
  - revert IH. simpl.
    destruct (c' =? sep)%N eqn:Ec'.
    + intros IH. simpl in *. now rewrite IH.
    + destruct (split sep r') as [|w ws] eqn:Es.
      * now destruct (split_nonempty sep r').
      * simpl. intros <-. reflexivity.
Qed.

Lemma fieldsBy_nil p s : fieldsBy p s = [] <-> forallb p s = true.
Proof.
  induction s as [|c r IH]; simpl; [tauto|].
  destruct (p c) eqn:Ec; simpl; [exact IH|].
  split; [|discriminate].
  destruct r as [|c' r']; [discriminate|].
  destruct (p c'); [discriminate|].
  destruct (fieldsBy p (c' :: r')); discriminate.
Qed.

Lemma fieldsBy_nonempty p s : Forall (fun w => w <> []) (fieldsBy p s).
Proof.
  induction s as [|c r IH]; simpl; [constructor|].
  destruct (p c); [exact IH|].
  destruct r as [|c' r']; [repeat constructor; discriminate|].
  destruct (p c'); [constructor; [discriminate|exact IH]|].
  destruct (fieldsBy p (c' :: r')) as [|w ws]; [repeat constructor; discriminate|].
  inversion IH; subst. constructor; [discriminate|assumption].
Qed.

Lemma fieldsBy_sep_free p s :
  Forall (fun w => forallb (fun c => negb (p c)) w = true) (fieldsBy p s).
Proof.
  induction s as [|c r IH]; simpl; [constructor|].
  destruct (p c) eqn:Ec; [exact IH|].
  destruct r as [|c' r']; [repeat constructor; simpl; now rewrite Ec|].
  destruct (p c') eqn:Ec'.
  - constructor; [simpl; now rewrite Ec|exact IH].
  - destruct (fieldsBy p (c' :: r')) as [|w ws].
    + repeat constructor. simpl. now rewrite Ec.
    + inversion IH; subst. constructor; [simpl; now rewrite Ec|assumption].
Qed.

Lemma trimStart_blank s : forallb isWhiteSpace s = true -> trimStart s = [].
Proof.
  induction s as [|c r IH]; simpl; [reflexivity|].
  destruct (isWhiteSpace c); simpl; [exact IH|discriminate].
Qed.

Lemma trimStart_head s :
  forallb isWhiteSpace s = false ->
  exists c r, trimStart s = c :: r /\ isWhiteSpace c = false.
Proof.
  induction s as [|c r IH]; simpl; [discriminate|].
  destruct (isWhiteSpace c) eqn:Ec; simpl; [exact IH|].
  intros _. now exists c, r.
Qed.

Lemma trimEnd_head c r :
  isWhiteSpace c = false -> exists r', trimEnd (c :: r) = c :: r'.
Proof.
  intros Hc. simpl. destruct (trimEnd r) as [|c' r'].
  - rewrite Hc. now exists [].
  - now exists (c' :: r').
Qed.

Lemma trim_blank s : forallb isWhiteSpace s = true -> trim s = [].
Proof. intros H. unfold trim. now rewrite trimStart_blank. Qed.

Lemma trim_head s :
  forallb isWhiteSpace s = false ->
  exists c r, trim s = c :: r /\ isWhiteSpace c = false.
Proof.
  intros H. destruct (trimStart_head s H) as (c & r & E & Hc).
  unfold trim. rewrite E.
  destruct (trimEnd_head c r Hc) as [r' E'].
  now exists c, r'.
Qed.

(** The name splits into no segment exactly when it is blank. *)
Lemma splitedName_nil s :
  StringUtils.splitedName s = [] <-> forallb isWhiteSpace s = true.
Proof.
  unfold StringUtils.splitedName. rewrite filterBoolean_split, fieldsBy_nil.
  split.
  - intros H. destruct (forallb isWhiteSpace s) eqn:E; [reflexivity|].
    destruct (trim_head s E) as (c & r & Et & Hc).
    rewrite Et in H. simpl in H. apply andb_true_iff in H as [H _].
    apply N.eqb_eq in H. subst c. discriminate.
  - intros H. now rewrite trim_blank.
Qed.

Lemma lookup_last_default (ws : list jsstring) w :
  (w :: ws) !! (length (w :: ws) - 1)%nat = Some (List.last (w :: ws) []).
Proof.
  revert w. induction ws as [|w' ws IH]; intros w; [reflexivity|].
  specialize (IH w'). simpl in *.
  rewrite Nat.sub_0_r in IH. exact IH.
Qed.

End StringFacts.

(** ** Theorems about [string-utils.ts] *)

Section StringTheorems.

Variable up : jsstring -> jsstring.

Lemma splitedName_fields s :
  StringUtils.splitedName s = fieldsBy isSpace (trim s).
Proof. apply filterBoolean_split. Qed.

(** On a list of non-empty segments the function returns, and what it
    returns are the initials of the first and the last segment. *)
Lemma nameInitials_of_segments s w rest :
  StringUtils.splitedName s = w :: rest ->
  StringUtils.nameInitials up s =
    Normal (match rest with
            | [] => up (charAt0 w)
            | _ :: _ => up (charAt0 w) ++ up (charAt0 (List.last rest []))
            end).
Proof.
  intros E. unfold StringUtils.nameInitials. rewrite E.
  destruct rest as [|w' rest']; [reflexivity|].
  change (1 <? length (w :: w' :: rest'))%nat with true. cbv iota.
  unfold StringUtils.initialAt.
  rewrite (lookup_last_default (w' :: rest') w). reflexivity.
Qed.

(** C3 (as the code behaves): [nameInitials] raises a [TypeError] exactly on
    the blank names, those made of white space only, the empty string among
    them. [slugToString] and [capitalizeFirstLetter] guard the empty input and
    return it unchanged. *)
Theorem nameInitials_throws_on_blank (s : jsstring) :
  is_throw (StringUtils.nameInitials up s) = forallb isWhiteSpace s
  /\ StringUtils.nameInitials up (lit "") = Throw TypeError
  /\ StringUtils.nameInitials up (lit "   ") = Throw TypeError
  /\ StringUtils.slugToString up (lit "") = lit ""
  /\ StringUtils.capitalizeFirstLetter up (lit "") = lit "".
Proof.
  split; [|repeat split; reflexivity].
  destruct (forallb isWhiteSpace s) eqn:E.
  - apply splitedName_nil in E.
    unfold StringUtils.nameInitials. now rewrite E.
  - destruct (StringUtils.splitedName s) as [|w rest] eqn:Es.
    + apply splitedName_nil in Es. congruence.
    + now rewrite (nameInitials_of_segments s w rest Es).
Qed.

(** C4 (amended): the segments of a name are the maximal runs of characters
    other than U+0020 in the trimmed name; each is non-empty and holds no
    U+0020. With two or
    more segments the result is the upper-cased first character of the first
    segment followed by that of the last one; with exactly one segment it is
    the upper-cased first character of that segment. *)
Theorem nameInitials_space_segments (s : jsstring) :
  StringUtils.splitedName s = fieldsBy isSpace (trim s)
  /\ Forall (fun w => w <> [] /\ forallb (fun c => negb (isSpace c)) w = true)
       (StringUtils.splitedName s)
  /\ match fieldsBy isSpace (trim s) with
     | [] => True
     | [w] =>
         exists c r, w = c :: r
           /\ StringUtils.nameInitials up s = Normal (up [c])
     | w :: rest =>
         exists c1 r1 c2 r2, w = c1 :: r1 /\ List.last rest [] = c2 :: r2
           /\ StringUtils.nameInitials up s = Normal (up [c1] ++ up [c2])
     end.
Proof.
  split; [apply splitedName_fields|].
  split.
  { rewrite splitedName_fields. apply Forall_and.
    split; [apply fieldsBy_nonempty|apply fieldsBy_sep_free]. }
  pose proof (splitedName_fields s) as E.
  pose proof (fieldsBy_nonempty isSpace (trim s)) as Hne.
  destruct (fieldsBy isSpace (trim s)) as [|w rest]; [exact I|].
  rewrite (nameInitials_of_segments s w rest E).
  inversion Hne as [|? ? Hw Hrest]; subst.
  destruct w as [|c r]; [congruence|].
  destruct rest as [|w' rest']; [now exists c, r|].
  assert (Hl : List.last (w' :: rest') [] <> []).
  { clear -Hrest. revert w' Hrest.
    induction rest' as [|x xs IH]; intros w' H; inversion H; subst; [assumption|].
    now apply (IH x). }
  destruct (List.last (w' :: rest') []) as [|c2 r2] eqn:El; [congruence|].
  now exists c, r, c2, r2.
Qed.

End StringTheorems.

(** Two words separated by several spaces still give two initials. *)
Example initials_many_spaces :
  StringUtils.nameInitials asciiUpper (lit "John   Doe") = Normal (lit "JD").
Proof. reflexivity. Qed.

(** C4 (as stated) fails: a tab between two words does not separate them,
    the code sees one segment and returns one initial where the
    specification's reading gives two. *)
Lemma nameInitials_tab_counterexample :
  StringUtils.nameInitials asciiUpper john_tab_doe = Normal (lit "J")
  /\ spec_nameInitials asciiUpper john_tab_doe = Some (lit "JD")
  /\ StringUtils.nameInitials asciiUpper john_tab_doe <> Normal (lit "JD").
Proof. repeat split; discriminate. Qed.

Example slug_hello :
  StringUtils.slugToString asciiUpper (lit "hello-world") = lit "Hello World".
Proof. reflexivity. Qed.

Example initials_john :
  StringUtils.nameInitials asciiUpper (lit "John Doe") = Normal (lit "JD").
Proof. reflexivity. Qed.

Example initials_mary :
  StringUtils.nameInitials asciiUpper (lit "Mary Jane Watson") = Normal (lit "MW").
Proof. reflexivity. Qed.

Example initials_alice :
  StringUtils.nameInitials asciiUpper (lit "Alice") = Normal (lit "A").
Proof. reflexivity. Qed.

(** ** Theorems about [use-local-storage.tsx] *)

Section LocalStorageTheorems.

Import UseLocalStorage.

Context {T : Type}.
Variable JSON_stringify : T -> option string.
Variable JSON_parse : string -> option T.
Variable accepts : gmap string string -> string -> string -> bool.

Local Abbreviation readValue := (UseLocalStorage.readValue JSON_parse).
Local Abbreviation setValue := (UseLocalStorage.setValue JSON_stringify accepts).
Local Abbreviation writable := (UseLocalStorage.writable accepts).

Lemma truthy_Some item text :
  truthy item = Some text <-> item = Some text /\ text <> "".
Proof.
  unfold truthy. destruct item as [s|]; [|split; [discriminate|intros [? _]; discriminate]].
  destruct (String.eqb_spec s "") as [->|Hne].
  - split; [discriminate|]. intros [[= <-] H]. now destruct H.
  - split; [intros [= <-]; now split|]. now intros [[= <-] _].
Qed.

Lemma truthy_None item :
  truthy item = None <-> item = None \/ item = Some "".
Proof.
  unfold truthy. destruct item as [s|]; [|split; auto].
  destruct (String.eqb_spec s "") as [->|Hne].
  - split; auto.
  - split; [discriminate|]. intros [|[=]]; [discriminate|congruence].
Qed.

(** [readValue] run symbolically, case by case. *)
Lemma readValue_blocked key v0 b error :
  blocked b = Some error ->
  readValue key v0 b =
    (Normal v0, after b [GetItem key; Warn (readMessage key) error]).
Proof.
  intros Ha. destruct b as [a its tr]. simpl in Ha. subst a.
  unfold after. cbn. now rewrite <- app_assoc.
Qed.

Lemma readValue_falsy key v0 b :
  blocked b = None -> truthy (items b !! key) = None ->
  readValue key v0 b = (Normal v0, after b [GetItem key]).
Proof.
  intros Ha Ht. destruct b as [a its tr]. simpl in *. subst a.
  unfold after, UseLocalStorage.readValue, try_catch, mbind, localStorage_getItem,
    log, modify, get, mbind, ret. simpl. now rewrite Ht.
Qed.

Lemma readValue_parsed key v0 b text v :
  blocked b = None -> truthy (items b !! key) = Some text ->
  JSON_parse text = Some v ->
  readValue key v0 b = (Normal v, after b [GetItem key; Parse text]).
Proof.
  intros Ha Ht Hp. destruct b as [a its tr]. simpl in *. subst a.
  unfold after, UseLocalStorage.readValue, try_catch, mbind, localStorage_getItem,
    parse, log, modify, get, mbind, ret. simpl. rewrite Ht. simpl. rewrite Hp.
  simpl. now rewrite <- app_assoc.
Qed.

Lemma readValue_malformed key v0 b text :
  blocked b = None -> truthy (items b !! key) = Some text ->
  JSON_parse text = None ->
  readValue key v0 b =
    (Normal v0, after b [GetItem key; Parse text; Warn (readMessage key) SyntaxError]).
Proof.
  intros Ha Ht Hp. destruct b as [a its tr]. simpl in *. subst a.
  unfold after, UseLocalStorage.readValue, try_catch, mbind, localStorage_getItem,
    parse, console_warn, log, modify, get, mbind, ret, throw.
  simpl. rewrite Ht. simpl. rewrite Hp. simpl. now rewrite <- !app_assoc.
Qed.

(** [setValue] run symbolically, case by case. *)
Lemma setValue_blocked key sv value st b error :
  blocked b = Some error ->
  setValue key sv value (st, b) =
    (Normal tt,
     (valueToStore value sv,
      after b [SetState (valueToStore value sv); Warn (setMessage key) error])).
Proof.
  intros Ha. destruct b as [a its tr]. simpl in Ha. subst a.
  unfold after, UseLocalStorage.setValue, try_catch, mbind, setStoredValue, on_snd,
    window_localStorage, console_warn, log, modify, get, mbind, ret, throw.
  simpl. now rewrite <- !app_assoc.
Qed.

Lemma setValue_unserializable key sv value st b :
  blocked b = None ->
  JSON_stringify (valueToStore value sv) = None ->
  setValue key sv value (st, b) =
    (Normal tt,
     (valueToStore value sv,
      after b [SetState (valueToStore value sv); Stringify (valueToStore value sv);
               Warn (setMessage key) TypeError])).
Proof.
  intros Ha Hs. destruct b as [a its tr]. simpl in Ha. subst a.
  unfold after, UseLocalStorage.setValue, try_catch, mbind, setStoredValue, on_snd,
    window_localStorage, stringify, console_warn, log, modify, get, mbind, ret, throw.
  simpl. rewrite Hs. simpl. now rewrite <- !app_assoc.
Qed.

Lemma setValue_stored key sv value st b text :
  JSON_stringify (valueToStore value sv) = Some text ->
  blocked b = None -> accepts (items b) key text = true ->
  setValue key sv value (st, b) =
    (Normal tt,
     (valueToStore value sv,
      mkBrowser None (<[key := text]> (items b))
        (trace b ++ [SetState (valueToStore value sv);
                     Stringify (valueToStore value sv); SetItem key text]))).
Proof.
  intros Hs Ha Hq. destruct b as [a its tr]. simpl in Ha, Hq. subst a.
  unfold UseLocalStorage.setValue, try_catch, mbind, setStoredValue, on_snd,
    window_localStorage, stringify, localStorage_setItem, log, modify, get,
    mbind, ret, throw.
  simpl. rewrite Hs. simpl. rewrite Hq. simpl. now rewrite <- !app_assoc.
Qed.

Lemma setValue_refused key sv value st b text :
  JSON_stringify (valueToStore value sv) = Some text ->
  blocked b = None -> accepts (items b) key text = false ->
  setValue key sv value (st, b) =
    (Normal tt,
     (valueToStore value sv,
      after b [SetState (valueToStore value sv); Stringify (valueToStore value sv);
               SetItem key text;
               Warn (setMessage key) (DOMException "QuotaExceededError")])).
Proof.
  intros Hs Ha Hq. destruct b as [a its tr]. simpl in Ha, Hq. subst a.
  unfold after, UseLocalStorage.setValue, try_catch, mbind, setStoredValue, on_snd,
    window_localStorage, stringify, localStorage_setItem, console_warn, log,
    modify, get, mbind, ret, throw.
  simpl. rewrite Hs. simpl. rewrite Hq. simpl. now rewrite <- !app_assoc.
Qed.

(** A write that does not go through leaves the store as it was. *)
Lemma setValue_failed key sv value st b :
  match JSON_stringify (valueToStore value sv) with
  | Some text => writable b key text = false
  | None => True
  end ->
  exists evs,
    setValue key sv value (st, b)
    = (Normal tt, (valueToStore value sv, after b evs)).
Proof.
  intros Hfail. destruct (blocked b) as [error|] eqn:Ha.
  - eexists. exact (setValue_blocked key sv value st b error Ha).
  - destruct (JSON_stringify (valueToStore value sv)) as [text|] eqn:Hs.
    + unfold UseLocalStorage.writable in Hfail. rewrite Ha in Hfail.
      eexists. exact (setValue_refused key sv value st b text Hs Ha Hfail).
    + eexists. exact (setValue_unserializable key sv value st b Ha Hs).
Qed.

(** What a write leaves under a key: the text just written, or what was there. *)
Lemma setValue_items key sv value st b :
  items (snd (snd (setValue key sv value (st, b)))) = items b
  \/ exists text,
       JSON_stringify (valueToStore value sv) = Some text
       /\ items (snd (snd (setValue key sv value (st, b)))) = <[key := text]> (items b).
Proof.
  destruct (JSON_stringify (valueToStore value sv)) as [text|] eqn:Hs.
  - destruct (writable b key text) eqn:Hq.
    + unfold UseLocalStorage.writable in Hq.
      destruct (blocked b) eqn:Ha; [discriminate|].
      rewrite (setValue_stored key sv value st b text Hs Ha Hq). right. now exists text.
    + destruct (setValue_failed key sv value st b) as [evs ->]; [now rewrite Hs|].
      now left.
  - destruct (setValue_failed key sv value st b) as [evs ->]; [now rewrite Hs|].
    now left.
Qed.

(** A [storage] event for the key makes the cell what a read returns; an
    event for another key changes nothing. *)
Lemma handleStorage_sync key v0 st b eventKey :
  handleStorage JSON_parse key v0 eventKey (st, b) =
    if decide (eventKey = Some key) then
      match readValue key v0 b with
      | (Normal v, b') => (Normal tt, (v, after b' [SetState v]))
      | (Throw e, b') => (Throw e, (st, b'))
      end
    else (Normal tt, (st, b)).
Proof.
  unfold handleStorage. case_decide; [|reflexivity].
  unfold mbind, on_snd. simpl.
  destruct (readValue key v0 b) as [[v|e] b']; reflexivity.
Qed.

(** C8: [readValue] never throws. It returns the deserialized stored text when
    the key is present and the text deserializes, and the initial value when
    the key is absent or the text does not deserialize (or the storage cannot
    be reached); it leaves the store as it was. Whenever reading or
    deserializing raised an error, the last thing it did was to report that
    error with [console.warn]; when the key is absent, or the text
    deserializes, nothing is reported. *)
Theorem readValue_fallback (Hempty : JSON_parse "" = None) key v0 b :
  exists evs,
    readValue key v0 b =
      (Normal (match blocked b, items b !! key with
               | None, Some text => default v0 (JSON_parse text)
               | _, _ => v0
               end),
       after b evs)
    /\ (blocked b = None -> items b !! key = None -> evs = [GetItem key])
    /\ (forall text v, blocked b = None -> items b !! key = Some text ->
        JSON_parse text = Some v -> evs = [GetItem key; Parse text])
    /\ (forall text, blocked b = None -> items b !! key = Some text ->
        text <> "" -> JSON_parse text = None ->
        last evs = Some (Warn (readMessage key) SyntaxError))
    /\ (forall error, blocked b = Some error ->
        last evs = Some (Warn (readMessage key) error)).
Proof using Type.
  destruct (blocked b) as [error|] eqn:Ha.
  - exists [GetItem key; Warn (readMessage key) error].
    rewrite (readValue_blocked key v0 b error Ha).
    repeat split; intros; by simplify_eq.
  - destruct (truthy (items b !! key)) as [text|] eqn:Ht.
    + apply truthy_Some in Ht as Hi. destruct Hi as [Hi Hne]. rewrite Hi.
      destruct (JSON_parse text) as [v|] eqn:Hp.
      * exists [GetItem key; Parse text].
        rewrite (readValue_parsed key v0 b text v Ha Ht Hp).
        repeat split; intros; congruence.
      * exists [GetItem key; Parse text; Warn (readMessage key) SyntaxError].
        rewrite (readValue_malformed key v0 b text Ha Ht Hp).
        repeat split; intros; congruence.
    + exists [GetItem key]. rewrite (readValue_falsy key v0 b Ha Ht).
      apply truthy_None in Ht as [Hi|Hi]; rewrite Hi.
      * repeat split; intros; congruence.
      * rewrite Hempty. repeat split; intros; congruence.
Qed.

(** C10: when the text stored under the key is empty, [readValue] returns the
    initial value and does exactly what it does when the key is absent; in
    particular it never calls [JSON.parse]. The setter cannot have produced
    that text, as long as the serializer never yields the empty text. *)
Theorem readValue_empty_text
  (Hser : forall v, JSON_stringify v <> Some "") key v0 b :
  items b !! key = Some "" ->
  exists evs,
    readValue key v0 b = (Normal v0, after b evs)
    /\ readValue key v0 (mkBrowser (blocked b) (delete key (items b)) (trace b))
       = (Normal v0,
          after (mkBrowser (blocked b) (delete key (items b)) (trace b)) evs)
    /\ (forall text, Parse text ∉ evs)
    /\ (forall key' sv value st b0,
        items (snd (snd (setValue key' sv value (st, b0)))) !! key = Some "" ->
        items b0 !! key = Some "").
Proof using Type.
  intros Hi.
  assert (Hset : forall key' sv value st b0,
             items (snd (snd (setValue key' sv value (st, b0)))) !! key = Some "" ->
             items b0 !! key = Some "").
  { intros key' sv value st b0.
    destruct (setValue_items key' sv value st b0) as [->|(text & Hs & ->)]; [auto|].
    destruct (decide (key' = key)) as [->|Hne].
    - rewrite lookup_insert_eq. intros [= ->]. now destruct (Hser _ Hs).
    - now rewrite lookup_insert_ne. }
  destruct (blocked b) as [error|] eqn:Ha.
  - exists [GetItem key; Warn (readMessage key) error].
    repeat split; [| | |exact Hset].
    + now apply readValue_blocked.
    + now apply readValue_blocked.
    + intros text H. repeat (apply elem_of_cons in H as [H|H]; [discriminate|]).
      now apply elem_of_nil in H.
  - exists [GetItem key]. repeat split; [| | |exact Hset].
    + apply readValue_falsy; [assumption|]. now rewrite Hi.
    + apply readValue_falsy; [reflexivity|]. simpl. now rewrite lookup_delete_eq.
    + intros text H. apply list_elem_of_singleton in H. discriminate.
Qed.


(** C1: let the new value be serializable (the serializer gives a text that
    deserializes to it) and let the write go through. Then after the setter
    the cell holds the value, the store holds its serialization under the
    key, and a fresh hook instance on that key, whatever its initial value,
    reads the value back. *)
Theorem set_then_fresh_read (Hempty : JSON_parse "" = None)
    key storedValue value st b text :
  let v := valueToStore value storedValue in
  JSON_stringify v = Some text -> JSON_parse text = Some v ->
  writable b key text = true ->
  exists b',
    setValue key storedValue value (st, b) = (Normal tt, (v, b'))
    /\ items b' !! key = Some text
    /\ JSON_parse <$> items b' !! key = Some (Some v)
    /\ forall v0, fst (mount JSON_parse key v0 b') = Normal v.
Proof using Type.
  intros v Hs Hp Hq. subst v. unfold UseLocalStorage.writable in Hq.
  destruct (blocked b) eqn:Ha; [discriminate|].
  eexists. rewrite (setValue_stored key storedValue value st b text Hs Ha Hq).
  split; [reflexivity|]. simpl. rewrite lookup_insert_eq.
  split; [reflexivity|]. split; [simpl; now rewrite Hp|].
  intros v0. unfold mount.
  erewrite readValue_parsed; [reflexivity|reflexivity| |exact Hp].
  simpl. rewrite lookup_insert_eq. apply truthy_Some. split; [reflexivity|].
  intros ->. congruence.
Qed.

End LocalStorageTheorems.

(** *** The hook on the scalar instance *)

Section ScalarInstance.

Import UseLocalStorage ScalarJson.

(** Every scalar is serializable: its text is not empty and reads back. *)
Lemma scalar_roundtrip (v : value) :
  exists text, stringify v = Some text /\ parse text = Some v /\ text <> "".
Proof.
  destruct v as [|[|]|z];
    try (eexists; split; [reflexivity|split; [reflexivity|discriminate]]).
  exists (numeral z). split; [reflexivity|].
  assert (Hd : DecimalString.NilZero.int_of_string (numeral z) = Some (Z.to_int z)).
  { apply DecimalString.NilZero.isi; destruct z as [|p|p]; try discriminate;
      intros [= E]; now apply (DecimalPos.Unsigned.to_uint_nonnil p). }
  split.
  - unfold parse. rewrite Hd, DecimalZ.of_to, String.eqb_refl. reflexivity.
  - intros E. rewrite E in Hd. discriminate.
Qed.

Lemma parse_empty : parse "" = None.
Proof. reflexivity. Qed.

Lemma set_then_fresh_read_witness :
  parse "" = None
  /\ stringify (JNum 42) = Some "42"
  /\ parse "42" = Some (JNum 42)
  /\ writable accepts fresh "count" "42" = true
  /\ exists b',
       setValue stringify accepts "count" JNull (Value (JNum 42)) (JNull, fresh)
       = (Normal tt, (JNum 42, b'))
       /\ forall v0, fst (mount parse "count" v0 b') = Normal (JNum 42).
Proof.
  repeat (split; [reflexivity|]).
  destruct (set_then_fresh_read stringify parse accepts parse_empty "count"
              JNull (Value (JNum 42)) JNull fresh "42"
              eq_refl eq_refl eq_refl) as (b' & E & _ & _ & R).
  exists b'. split; [exact E|exact R].
Defined.

Lemma readValue_fallback_witness :
  parse "" = None
  /\ fst (readValue parse "count" JNull (holding "42")) = Normal (JNum 42)
  /\ fst (readValue parse "count" JNull (holding "4 2")) = Normal JNull
  /\ fst (readValue parse "count" (JNum 7) fresh) = Normal (JNum 7).
Proof.
  split; [reflexivity|]. split; [|split].
  - destruct (readValue_fallback parse parse_empty "count" JNull (holding "42"))
      as (evs & E & _). rewrite E. reflexivity.
  - destruct (readValue_fallback parse parse_empty "count" JNull (holding "4 2"))
      as (evs & E & _). rewrite E. reflexivity.
  - destruct (readValue_fallback parse parse_empty "count" (JNum 7) fresh)
      as (evs & E & _). rewrite E. reflexivity.
Defined.

Lemma stringify_nonempty v : stringify v <> Some "".
Proof.
  destruct (scalar_roundtrip v) as (text & Hs & _ & Hne). congruence.
Qed.

Lemma readValue_empty_text_witness :
  items (holding "") !! "count" = Some ""
  /\ fst (readValue parse "count" (JBool true) (holding "")) = Normal (JBool true).
Proof.
  split; [reflexivity|].
  destruct (readValue_empty_text stringify parse accepts stringify_nonempty
              "count" (JBool true) (holding "") eq_refl) as (evs & E & _).
  rewrite E. reflexivity.
Defined.

(** The setter under a refused write: the cell is updated, the store is not,
    and the refusal is reported. *)
Example setValue_over_quota :
  setValue stringify accepts "count" JNull (Value (JNum (10 ^ 20))) (JNull, fresh)
  = (Normal tt,
     (JNum (10 ^ 20),
      after fresh [SetState (JNum (10 ^ 20)); Stringify (JNum (10 ^ 20));
                   SetItem "count" "100000000000000000000";
                   Warn (setMessage "count") (DOMException "QuotaExceededError")])).
Proof. reflexivity. Qed.

(** Reading where there is no [window]: the initial value, and a warning. *)
Example readValue_without_window :
  readValue parse "count" (JNum 7)
    (mkBrowser (Some ReferenceError) {["count" := "42"]} [])
  = (Normal (JNum 7),
     mkBrowser (Some ReferenceError) {["count" := "42"]}
       [GetItem "count"; Warn (readMessage "count") ReferenceError]).
Proof. reflexivity. Qed.

(** The setter where the storage is denied: the cell is updated and the
    denial is reported; nothing is serialized. *)
Example setValue_denied :
  setValue stringify accepts "count" JNull (Value (JNum 42))
    (JNull, mkBrowser (Some (DOMException "SecurityError")) ∅ [])
  = (Normal tt,
     (JNum 42,
      mkBrowser (Some (DOMException "SecurityError")) ∅
        [SetState (JNum 42);
         Warn (setMessage "count") (DOMException "SecurityError")])).
Proof. reflexivity. Qed.

(** Two calls of the setter of one render: the function of the second call
    is applied to the state that the render saw, not to the result of the
    first call. *)
Example setValue_twice_in_one_render :
  let increment :=
    Update (fun v => match v with JNum z => JNum (z + 1) | _ => JNum 0 end) in
  let setter := snd (useLocalStorage stringify accepts "count" (JNum 41)) in
  fst (snd (setter increment (snd (setter increment (JNum 41, holding "41")))))
  = JNum 42.
Proof. vm_compute. reflexivity. Qed.

(** The setter with an updating function. *)
Example setValue_update :
  setValue stringify accepts "count" (JNum 41)
    (Update (fun v => match v with JNum z => JNum (z + 1) | _ => JNum 0 end))
    (JNum 41, holding "41")
  = (Normal tt,
     (JNum 42,
      mkBrowser None {["count" := "42"]}
        [SetState (JNum 42); Stringify (JNum 42); SetItem "count" "42"])).
Proof. vm_compute. reflexivity. Qed.

End ScalarInstance.

(** ** Theorems about the scroll-threshold hook *)

Section ScrollTheorems.

Import UseScroll.






(** C2, the code at the failing inputs: a hook mounted on a page that is
    already scrolled past the threshold reports [false] until the next scroll
    event, and a threshold raised above the offset leaves the flag [true];
    either way the flag is not whether the page is scrolled beyond the
    threshold. *)
Lemma useScroll_mount_counterexample :
  active (mount (num 100) (num 200)) = true
  /\ scrollY (mount (num 100) (num 200)) = num 200
  /\ useScroll (mount (num 100) (num 200)) = false
  /\ gt (num 200) (num 100) = true
  /\ useScroll (mount (num 100) (num 200)) <> gt (num 200) (num 100)
  /\ active (run (mount (num 100) (num 0)) [Scroll (num 150); Rerender (num 300)])
     = true
  /\ useScroll (run (mount (num 100) (num 0)) [Scroll (num 150); Rerender (num 300)])
     = true
  /\ gt (num 150) (num 300) = false.
Proof. repeat split; discriminate. Qed.

End ScrollTheorems.

(** ** Facts about double-precision arithmetic *)

Section DoubleFacts.

Import Double.
Local Open Scope Z_scope.

(** Rounding to the nearest integer moves to the floor or to the next one,
    and to the next one only from the upper half. *)
Lemma nearestEven_range n d :
  0 < d -> 0 <= n ->
  n / d <= nearestEven n d <= n / d + 1
  /\ (nearestEven n d = n / d + 1 -> d <= 2 * (n mod d)).
Proof.
  intros Hd Hn. unfold nearestEven.
  destruct (Z.ltb_spec (2 * (n mod d)) d); [lia|].
  destruct (Z.ltb_spec d (2 * (n mod d))); [lia|].
  destruct (Z.even (n / d)); lia.
Qed.

(** Under 2^53 the subtraction of doubles with integer values is exact. *)
Lemma roundNat_exact x : x < 2 ^ 53 -> roundNat x = x.
Proof.
  intros H. unfold roundNat. destruct (Z.ltb_spec x (2 ^ 53)); [reflexivity|lia].
Qed.

Lemma sub_exact a b : Z.abs (a - b) < 2 ^ 53 -> sub a b = a - b.
Proof.
  intros H. unfold sub. rewrite roundNat_exact by assumption.
  rewrite Z.mul_comm. apply Z.abs_sgn.
Qed.

(** Rounding is symmetric in the sign. *)
Lemma abs_sub_sym a b : Z.abs (sub a b) = Z.abs (sub b a).
Proof.
  unfold sub. replace (b - a) with (- (a - b)) by lia.
  rewrite Z.sgn_opp, Z.abs_opp, !Z.abs_mul, Z.abs_opp. reflexivity.
Qed.

(** The exponent found is not above that of the quotient. *)
Lemma exponent_atLeast a b :
  0 < a -> 0 < b -> atLeastPow a b (exponent a b) = true.
Proof.
  intros Ha Hb. unfold exponent.
  destruct (atLeastPow a b (Z.log2 a - Z.log2 b)) eqn:E; [exact E|].
  pose proof (Z.log2_spec a Ha) as [La _].
  pose proof (Z.log2_spec b Hb) as [_ Lb].
  pose proof (Z.log2_nonneg a). pose proof (Z.log2_nonneg b).
  unfold atLeastPow.
  destruct (Z.leb_spec 0 (Z.log2 a - Z.log2 b - 1)) as [He|He].
  - apply Z.leb_le.
    assert (P : 2 ^ Z.succ (Z.log2 b) * 2 ^ (Z.log2 a - Z.log2 b - 1) = 2 ^ Z.log2 a).
    { rewrite <- Z.pow_add_r by lia. f_equal. lia. }
    assert (0 < 2 ^ (Z.log2 a - Z.log2 b - 1)) by (apply Z.pow_pos_nonneg; lia).
    nia.
  - apply Z.leb_le.
    assert (P : 2 ^ Z.log2 a * 2 ^ (- (Z.log2 a - Z.log2 b - 1)) = 2 ^ Z.succ (Z.log2 b)).
    { rewrite <- Z.pow_add_r by lia. f_equal. lia. }
    assert (0 < 2 ^ (- (Z.log2 a - Z.log2 b - 1))) by (apply Z.pow_pos_nonneg; lia).
    nia.
Qed.

(** Under 2^53 the spacing of the doubles around the quotient is finer than
    half of [1 / b]. *)
Lemma exponent_fine a b :
  0 < a < 2 ^ 53 -> 0 < b ->
  exponent a b <= 52 /\ b < 2 * 2 ^ (52 - exponent a b).
Proof.
  intros [Ha Ha'] Hb. pose proof (exponent_atLeast a b Ha Hb) as H.
  unfold atLeastPow in H. set (e := exponent a b) in *.
  destruct (Z.leb_spec 0 e) as [He|He]; apply Z.leb_le in H.
  - assert (He' : e <= 52).
    { destruct (Z.le_gt_cases e 52) as [|G]; [assumption|exfalso].
      assert (2 ^ 53 <= 2 ^ e) by (apply Z.pow_le_mono_r; lia). nia. }
    split; [exact He'|].
    assert (P : 2 * 2 ^ (52 - e) * 2 ^ e = 2 ^ 53).
    { change 2 with (2 ^ 1) at 1. rewrite <- !Z.pow_add_r by lia. f_equal. lia. }
    assert (0 < 2 ^ e) by (apply Z.pow_pos_nonneg; lia).
    nia.
  - split; [lia|].
    assert (P : 2 * 2 ^ (52 - e) = 2 ^ 53 * 2 ^ (- e)).
    { change 2 with (2 ^ 1) at 1. rewrite <- !Z.pow_add_r by lia. f_equal. lia. }
    assert (0 < 2 ^ (- e)) by (apply Z.pow_pos_nonneg; lia).
    nia.
Qed.

(** Rounding a scaled quotient to the nearest integer does not reach the
    next multiple of the scale, when the scale exceeds half the divisor. *)
Lemma nearestEven_scaled a b s :
  0 <= a -> 0 < b -> 0 < s -> b < 2 * s ->
  nearestEven (a * s) b / s = a / b.
Proof.
  intros Ha Hb Hs Hbs.
  destruct (nearestEven_range (a * s) b Hb) as [[Lo Hi] Up]; [nia|].
  pose proof (Z.div_mod a b ltac:(lia)) as Ea.
  pose proof (Z.mod_pos_bound a b Hb) as Ra.
  pose proof (Z.div_mod (a * s) b ltac:(lia)) as En.
  pose proof (Z.mod_pos_bound (a * s) b Hb) as Rn.
  set (k := a / b) in *. set (r0 := a mod b) in *.
  set (f := (a * s) / b) in *. set (r := (a * s) mod b) in *.
  set (m := nearestEven (a * s) b) in *.
  assert (Hk : 0 <= k) by (apply Z.div_pos; lia).
  assert (L : k * s <= f) by (apply Z.div_le_lower_bound; nia).
  assert (U : m < (k + 1) * s).
  { destruct (Z.eq_dec m (f + 1)) as [E|NE].
    - specialize (Up E). apply (Z.mul_lt_mono_pos_r (2 * b)); [lia|]. nia.
    - assert (m = f) by lia. subst m. apply (Z.mul_lt_mono_pos_r b); [lia|]. nia. }
  symmetry. apply (Z.div_unique_pos m s k (m - s * k)); nia.
Qed.

(** Under 2^53 the floor of the double quotient is the integer quotient. *)
Lemma floorDiv_exact a b :
  0 <= a < 2 ^ 53 -> 0 < b -> floorDiv a b = a / b.
Proof.
  intros [Ha Ha'] Hb. unfold floorDiv.
  destruct (Z.eqb_spec a 0) as [->|Hne]; [reflexivity|].
  destruct (exponent_fine a b ltac:(lia) Hb) as [He Hf].
  destruct (Z.leb_spec (exponent a b) 52); [|lia].
  apply nearestEven_scaled; try lia.
Qed.

(** Under 2^53 the four floors of [timeDifference] are integer quotients. *)
Lemma floors_of_duration d :
  0 <= d < 2 ^ 53 ->
  floorDiv d 86400000 = d / 86400000
  /\ floorDiv (Z.rem d 86400000) 3600000 = Z.rem d 86400000 / 3600000
  /\ floorDiv (Z.rem d 3600000) 60000 = Z.rem d 3600000 / 60000
  /\ floorDiv (Z.rem d 60000) 1000 = Z.rem d 60000 / 1000.
Proof.
  intros [Hd Hd'].
  pose proof (Z.rem_bound_pos d 86400000 Hd ltac:(lia)).
  pose proof (Z.rem_bound_pos d 3600000 Hd ltac:(lia)).
  pose proof (Z.rem_bound_pos d 60000 Hd ltac:(lia)).
  repeat split; apply floorDiv_exact; lia.
Qed.

End DoubleFacts.

(** ** Theorems about [date-utils.ts] *)

(** The units of a duration in milliseconds, as [timeDifference] computes
    them: each is what remains after the larger units are taken out. *)
Lemma units_of_duration (d : Z) :
  (0 <= d)%Z ->
  (0 <= d / 86400000
   /\ 0 <= Z.rem d 86400000 / 3600000 < 24
   /\ 0 <= Z.rem d 3600000 / 60000 < 60
   /\ 0 <= Z.rem d 60000 / 1000 < 60
   /\ d / 86400000 * 86400 + Z.rem d 86400000 / 3600000 * 3600
      + Z.rem d 3600000 / 60000 * 60 + Z.rem d 60000 / 1000
      = d / 1000)%Z.
Proof.
  intros Hd. rewrite !Z.rem_mod_nonneg by lia.
  repeat split; Z.div_mod_to_equations; lia.
Qed.

Section DateTheorems.

Import DateUtils.

Variable Date_parse : string -> JsDate.
Variable toLocaleDateString : JsDate -> string -> DateTimeFormatOptions -> option string.
Variable toLocaleTimeString : JsDate -> string -> DateTimeFormatOptions -> option string.
Variable toLocaleString : JsDate -> string -> DateTimeFormatOptions -> option string.
Variable toISOString : Z -> string.

Local Abbreviation new_Date := (DateUtils.new_Date Date_parse).
Local Abbreviation formatDate := (DateUtils.formatDate Date_parse toLocaleDateString).
Local Abbreviation formatTime := (DateUtils.formatTime Date_parse toLocaleTimeString).
Local Abbreviation formatDateTimeToLocale :=
  (DateUtils.formatDateTimeToLocale Date_parse toLocaleString).
Local Abbreviation constructUTCFormat :=
  (DateUtils.constructUTCFormat Date_parse toLocaleString toISOString).
Local Abbreviation timeDifference := (DateUtils.timeDifference Date_parse).

Lemma formatted_not_invalid r : formatted r <> Throw invalidDate.
Proof. destruct r; discriminate. Qed.

(** [timeDifference] looks at the same instants as [new Date] would. *)
Lemma timeDifference_instants a b :
  timeDifference a b =
    match new_Date a, new_Date b with
    | Some t1, Some t2 =>
        let diff := Z.abs (Double.sub t1 t2) in
        Normal (mkDifference
                  (Double.floorDiv diff 86400000)
                  (Double.floorDiv (Z.rem diff 86400000) 3600000)
                  (Double.floorDiv (Z.rem diff 3600000) 60000)
                  (Double.floorDiv (Z.rem diff 60000) 1000))
    | _, _ => Throw invalidDate
    end.
Proof. destruct a, b; reflexivity. Qed.

(** C5: each of the five functions throws the error "Invalid date input"
    exactly when an input has no valid time value; so for such an input none
    of them returns anything, the host's sentinel text included. *)
Theorem invalid_date_iff_unparsable
    (input other : DateInput) (locale : option string)
    (options : option DateTimeFormatOptions) (format : option UTCFormat) :
  (formatDate input locale options = Throw invalidDate <-> new_Date input = None)
  /\ (formatTime input options locale = Throw invalidDate <-> new_Date input = None)
  /\ (formatDateTimeToLocale input locale options = Throw invalidDate
      <-> new_Date input = None)
  /\ (constructUTCFormat input format locale = Throw invalidDate
      <-> new_Date input = None)
  /\ (timeDifference input other = Throw invalidDate
      <-> new_Date input = None \/ new_Date other = None).
Proof.
  repeat split.
  - unfold DateUtils.formatDate. destruct (new_Date input); simpl; [|reflexivity].
    intros H. now apply formatted_not_invalid in H.
  - intros H. unfold DateUtils.formatDate. now rewrite H.
  - unfold DateUtils.formatTime. destruct (new_Date input); simpl; [|reflexivity].
    intros H. now apply formatted_not_invalid in H.
  - intros H. unfold DateUtils.formatTime. now rewrite H.
  - unfold DateUtils.formatDateTimeToLocale.
    destruct (new_Date input); simpl; [|reflexivity].
    intros H. now apply formatted_not_invalid in H.
  - intros H. unfold DateUtils.formatDateTimeToLocale. now rewrite H.
  - unfold DateUtils.constructUTCFormat.
    destruct (new_Date input); simpl; [|reflexivity].
    destruct (default iso format); [discriminate|].
    intros H. now apply formatted_not_invalid in H.
  - intros H. unfold DateUtils.constructUTCFormat. now rewrite H.
  - rewrite timeDifference_instants.
    destruct (new_Date input), (new_Date other); try discriminate; auto.
  - rewrite timeDifference_instants.
    intros [H|H]; rewrite H; [reflexivity|]. now destruct (new_Date input).
Qed.

(** Less than 2^53 milliseconds apart, the doubles of the code compute the
    integer difference and the integer quotients. *)
Lemma timeDifference_near a b ta tb :
  new_Date a = Some ta -> new_Date b = Some tb ->
  (Z.abs (ta - tb) < 2 ^ 53)%Z ->
  timeDifference a b =
    Normal (mkDifference
              (Z.abs (ta - tb) / 86400000)
              (Z.rem (Z.abs (ta - tb)) 86400000 / 3600000)
              (Z.rem (Z.abs (ta - tb)) 3600000 / 60000)
              (Z.rem (Z.abs (ta - tb)) 60000 / 1000)).
Proof.
  intros Ha Hb Hnear. rewrite timeDifference_instants, Ha, Hb. cbv zeta.
  rewrite (sub_exact ta tb Hnear).
  destruct (floors_of_duration (Z.abs (ta - tb))
              (conj (Z.abs_nonneg _) Hnear)) as (E1 & E2 & E3 & E4).
  now rewrite E1, E2, E3, E4.
Qed.

(** C6 (amended): on two valid instants less than 2^53 milliseconds apart
    [timeDifference] returns; the components are natural numbers, the hours
    under 24, the minutes and the seconds under 60, and together they make up
    the whole seconds of the absolute difference. On twice the same instant
    every component is zero. *)
Theorem timeDifference_decomposition (a b : DateInput) (ta tb : Z) :
  new_Date a = Some ta -> new_Date b = Some tb ->
  (Z.abs (ta - tb) < 2 ^ 53)%Z ->
  exists r,
    timeDifference a b = Normal r
    /\ (0 <= days r)%Z
    /\ (0 <= hours r < 24)%Z
    /\ (0 <= minutes r < 60)%Z
    /\ (0 <= seconds r < 60)%Z
    /\ (days r * 86400 + hours r * 3600 + minutes r * 60 + seconds r
        = Z.abs (ta - tb) / 1000)%Z
    /\ timeDifference a a = Normal (mkDifference 0 0 0 0).
Proof.
  intros Ha Hb Hnear.
  rewrite (timeDifference_near a b ta tb Ha Hb Hnear).
  rewrite (timeDifference_near a a ta ta Ha Ha)
    by (rewrite Z.sub_diag; reflexivity).
  eexists. split; [reflexivity|]. simpl days. simpl hours.
  simpl minutes. simpl seconds.
  rewrite Z.sub_diag. change (Z.abs 0) with 0%Z.
  pose proof (units_of_duration (Z.abs (ta - tb)) (Z.abs_nonneg _)) as H.
  repeat split; try apply H.
Qed.

End DateTheorems.

Lemma timeDifference_decomposition_witness :
  exists r,
    DateUtils.timeDifference (fun _ => None)
      (DateUtils.DateNumber (num 90061500)) (DateUtils.DateObject (Some 0%Z))
    = Normal r
    /\ (DateUtils.days r * 86400 + DateUtils.hours r * 3600
        + DateUtils.minutes r * 60 + DateUtils.seconds r = 90061)%Z.
Proof.
  destruct (timeDifference_decomposition (fun _ => None)
              (DateUtils.DateNumber (num 90061500))
              (DateUtils.DateObject (Some 0%Z)) 90061500 0 eq_refl eq_refl eq_refl)
    as (r & E & _ & _ & _ & _ & S & _).
  exists r. split; [exact E|exact S].
Defined.

(** C6 (as stated) fails: the latest valid date and a date one millisecond
    after the earliest one are 17279999999999999 ms apart, which is no
    double; the subtraction rounds it to 17280000000000000, and the days
    returned make up one second more than the whole seconds of the
    difference. *)
Lemma timeDifference_far_counterexample :
  DateUtils.new_Date (fun _ => None) (DateUtils.DateNumber (num 8640000000000000))
  = Some 8640000000000000%Z
  /\ DateUtils.new_Date (fun _ => None)
       (DateUtils.DateNumber (num (-8639999999999999)))
     = Some (-8639999999999999)%Z
  /\ DateUtils.timeDifference (fun _ => None)
       (DateUtils.DateNumber (num 8640000000000000))
       (DateUtils.DateNumber (num (-8639999999999999)))
     = Normal (DateUtils.mkDifference 200000000 0 0 0)
  /\ (200000000 * 86400 + 0 * 3600 + 0 * 60 + 0 = 17280000000000)%Z
  /\ (Z.abs (8640000000000000 - -8639999999999999) / 1000 = 17279999999999)%Z.
Proof. repeat split; vm_compute; reflexivity. Qed.

Example timeDifference_example :
  DateUtils.timeDifference (fun _ => None)
    (DateUtils.DateNumber (num 90061500)) (DateUtils.DateObject (Some 0%Z))
  = Normal (DateUtils.mkDifference 1 1 1 1).
Proof. reflexivity. Qed.

(** ** Theorems about the number formatters *)

Section NumberTheorems.

Import NumberUtils.

Variable Intl_format : option string -> NumberFormatOptions -> JsNumber -> option string.

(** How many fraction digits a text shows, in the host's locale. *)
Variable fractionDigits : string -> nat.

Local Abbreviation formatDecimal := (NumberUtils.formatDecimal Intl_format).

(** C9 (amended): provided the host never renders a number as the empty
    text, [formatDecimal] returns the empty string exactly for the inputs that
    are not valid numbers. Provided the host renders a finite number with
    exactly [z] fraction digits when it is asked for [z] as the least and the
    greatest number of them, for a whole [z] from 0 to 100, [formatDecimal]
    returns for a finite number and such a requested count (2 by default) a
    text that is not empty and shows exactly that many fraction digits. *)
Theorem formatDecimal_empty_iff_invalid
    (Hhost : forall locales o n, Intl_format locales o n <> Some "")
    (Hfixed : forall q z,
        (0 <= z <= 100)%Z ->
        exists text,
          Intl_format None
            (mkNumberOptions None None (Some (num z)) (Some (num z))) (Finite q)
          = Some text
          /\ fractionDigits text = Z.to_nat z)
    (v : JsValue) (decimals : option JsNumber) :
  (formatDecimal v decimals = Normal "" <-> validNumber v = false)
  /\ (forall q z,
      default (num 2) decimals = num z -> (0 <= z <= 100)%Z ->
      exists text,
        formatDecimal (VNumber (Finite q)) decimals = Normal text
        /\ text <> ""
        /\ fractionDigits text = Z.to_nat z).
Proof using Type.
  split.
  - destruct v as [| | | |n|]; simpl; try tauto.
    destruct (isNaN n); simpl; [tauto|].
    split; [|discriminate].
    destruct (Intl_format None _ n) as [text|] eqn:E; simpl; [|discriminate].
    intros [= ->]. now apply Hhost in E.
  - intros q z Hd Hz. destruct (Hfixed q z Hz) as (text & E & F).
    exists text. unfold NumberUtils.formatDecimal. simpl isNaN. cbv iota.
    rewrite Hd, E. split; [reflexivity|]. split; [|exact F].
    intros ->. now apply Hhost in E.
Qed.

End NumberTheorems.

(** *** [formatDecimal] on the [en-US] instance *)

Section EnUsInstance.

Import NumberUtils EnUsHost.

Lemma numeral_nonempty z : ScalarJson.numeral z <> "".
Proof.
  destruct (scalar_roundtrip (ScalarJson.JNum z)) as (text & [= <-] & _ & H).
  exact H.
Qed.

Lemma digitsOf_nonempty z : digitsOf z <> [].
Proof.
  unfold digitsOf. pose proof (numeral_nonempty z) as H.
  destruct (ScalarJson.numeral z); [congruence|discriminate].
Qed.

Lemma group3_nonempty ds : ds <> [] -> group3 ds <> [].
Proof.
  destruct ds as [|a [|b [|c [|d r]]]]; simpl; congruence.
Qed.

Lemma rev_nonempty {A} (l : list A) : l <> [] -> rev l <> [].
Proof.
  intros H E. apply H. now rewrite <- (rev_involutive l), E.
Qed.

Lemma fixed_nonempty q lo hi : fixed q lo hi <> "".
Proof.
  unfold fixed.
  set (whole := rev (group3 (rev (digitsOf _)))).
  assert (Hw : whole <> []).
  { apply rev_nonempty, group3_nonempty, rev_nonempty, digitsOf_nonempty. }
  destruct whole as [|c w]; [congruence|].
  destruct (Qle_bool 0 q); simpl; discriminate.
Qed.

Lemma format_nonempty locales o n : format locales o n <> Some "".
Proof.
  unfold format.
  destruct (digitCount _) as [lo|]; [|discriminate].
  destruct (digitCount _) as [hi|]; [|discriminate].
  destruct (hi <? lo)%nat; [discriminate|].
  destruct n as [| | |q]; try discriminate.
  intros [= E]. now apply fixed_nonempty in E.
Qed.

Lemma digitCount_num z :
  (0 <= z <= 100)%Z -> digitCount (num z) = Some (Z.to_nat z).
Proof.
  intros [H0 H100]. unfold digitCount, num.
  assert (E0 : Qle_bool 0 (inject_Z z) = true)
    by (apply Qle_bool_iff; change 0%Q with (inject_Z 0);
        rewrite <- Zle_Qle; exact H0).
  assert (E1 : Qle_bool (inject_Z z) (inject_Z 100) = true)
    by (apply Qle_bool_iff; rewrite <- Zle_Qle; exact H100).
  now rewrite E0, E1, Qfloor_Z.
Qed.

Lemma length_fraction w z : length (fraction w z) = w.
Proof.
  revert z. induction w as [|w IH]; intros z; simpl; [reflexivity|].
  rewrite length_app, IH. simpl. lia.
Qed.

Lemma dropZeros_short keep l : (length l <= keep)%nat -> dropZeros keep l = l.
Proof.
  intros H. destruct l as [|c r]; [reflexivity|].
  unfold dropZeros. fold dropZeros.
  destruct (Nat.ltb_spec keep (length (c :: r))); [lia|reflexivity].
Qed.

Lemma afterPoint_app_free x y : pointFree x = true -> afterPoint (x ++ y) = afterPoint y.
Proof.
  induction x as [|c x IH]; simpl; [reflexivity|].
  intros H. apply andb_true_iff in H as [Hc Hx]. apply negb_true_iff in Hc.
  rewrite Hc. now apply IH.
Qed.

Lemma pointFree_rev l : pointFree l = true -> pointFree (rev l) = true.
Proof.
  unfold pointFree. rewrite !forallb_forall. intros H c Hc.
  apply H. now apply in_rev.
Qed.

Lemma group3_pointFree l : pointFree l = true -> pointFree (group3 l) = true.
Proof.
  remember (length l) as n eqn:Hn. revert l Hn.
  induction n as [n IH] using lt_wf_ind. intros l Hn H.
  destruct l as [|a [|b [|c [|d r]]]]; try exact H.
  change (group3 (a :: b :: c :: d :: r))
    with (a :: b :: c :: ","%char :: group3 (d :: r)).
  simpl in H. apply andb_true_iff in H as [Ha H].
  apply andb_true_iff in H as [Hb H]. apply andb_true_iff in H as [Hc H].
  unfold pointFree. cbn [forallb]. rewrite Ha, Hb, Hc. cbn [andb negb Ascii.eqb].
  apply (IH (length (d :: r))); [subst n; simpl; lia|reflexivity|exact H].
Qed.

Lemma uint_pointFree u :
  pointFree (list_ascii_of_string (DecimalString.NilEmpty.string_of_uint u)) = true.
Proof. induction u; simpl; auto. Qed.

Lemma digitsOf_pointFree z : pointFree (digitsOf z) = true.
Proof.
  unfold digitsOf, ScalarJson.numeral, DecimalString.NilZero.string_of_int.
  destruct (Z.to_int z) as [u|u];
    unfold DecimalString.NilZero.string_of_uint;
    destruct u; try reflexivity; apply uint_pointFree.
Qed.

(** Asked for as many fraction digits at least as at most, this host shows
    exactly that many. *)
Lemma fixed_fractionDigits q d : fractionDigits (fixed q d d) = d.
Proof.
  unfold fractionDigits, fixed. rewrite list_ascii_of_string_of_list_ascii.
  rewrite dropZeros_short by (rewrite length_rev, length_fraction; lia).
  rewrite rev_involutive.
  set (places := fraction d _).
  assert (Hl : length places = d) by apply length_fraction.
  rewrite afterPoint_app_free by (now destruct (Qle_bool 0 q)).
  rewrite afterPoint_app_free
    by apply pointFree_rev, group3_pointFree, pointFree_rev, digitsOf_pointFree.
  destruct places as [|c r]; simpl in *; [exact Hl|].
  now rewrite Hl.
Qed.

Lemma format_fixed q z :
  (0 <= z <= 100)%Z ->
  exists text,
    format None (mkNumberOptions None None (Some (num z)) (Some (num z))) (Finite q)
    = Some text
    /\ fractionDigits text = Z.to_nat z.
Proof.
  intros Hz. exists (fixed q (Z.to_nat z) (Z.to_nat z)).
  unfold format. simpl default. rewrite (digitCount_num z Hz).
  rewrite Nat.ltb_irrefl. split; [reflexivity|apply fixed_fractionDigits].
Qed.

Lemma formatDecimal_empty_iff_invalid_witness :
  NumberUtils.formatDecimal format (VString "12") None = Normal ""
  /\ NumberUtils.formatDecimal format (VNumber NaN) None = Normal ""
  /\ exists text,
       NumberUtils.formatDecimal format (VNumber (Finite (5 # 2))) (Some (num 3))
       = Normal text
       /\ fractionDigits text = 3%nat.
Proof.
  split; [|split].
  - apply (proj2 (proj1 (formatDecimal_empty_iff_invalid format fractionDigits
                           format_nonempty format_fixed (VString "12") None))).
    reflexivity.
  - apply (proj2 (proj1 (formatDecimal_empty_iff_invalid format fractionDigits
                           format_nonempty format_fixed (VNumber NaN) None))).
    reflexivity.
  - destruct (proj2 (formatDecimal_empty_iff_invalid format fractionDigits
                       format_nonempty format_fixed VNull (Some (num 3)))
                (5 # 2) 3%Z eq_refl ltac:(lia)) as (text & E & _ & F).
    exists text. split; [exact E|exact F].
Defined.

(** C9 (as stated) fails: infinity is a valid number and is rendered without
    fraction digits, and for a count that the host refuses the function
    throws instead of returning a string. *)
Lemma formatDecimal_counterexample :
  validNumber (VNumber PosInf) = true
  /\ NumberUtils.formatDecimal format (VNumber PosInf) None = Normal "∞"
  /\ fractionDigits "∞" = 0%nat
  /\ validNumber (VNumber (num 1)) = true
  /\ NumberUtils.formatDecimal format (VNumber (num 1)) (Some (num (-1)))
     = Throw RangeError.
Proof. repeat split. Qed.

End EnUsInstance.

Example formatDecimal_doc :
  NumberUtils.formatDecimal EnUsHost.format (VNumber (Finite (123456 # 1000))) (Some (num 2))
  = Normal "123.46".
Proof. vm_compute. reflexivity. Qed.

Example formatDecimal_grouped :
  NumberUtils.formatDecimal EnUsHost.format (VNumber (num 1234567)) None
  = Normal "1,234,567.00".
Proof. vm_compute. reflexivity. Qed.

Example formatDecimal_negative_digits :
  NumberUtils.formatDecimal EnUsHost.format (VNumber (num 1)) (Some (num (-1)))
  = Throw RangeError.
Proof. vm_compute. reflexivity. Qed.

(** * Further properties *)

(** ** Splitting and joining *)

Section SplitJoin.

Lemma split_app_sep sep x y :
  split sep (x ++ sep :: y) = split sep x ++ split sep y.
Proof.
  induction x as [|c x IH]; simpl.
  - now rewrite N.eqb_refl.
  - rewrite IH. destruct (c =? sep)%N; [reflexivity|].
    destruct (split sep x) as [|w ws] eqn:Es; [|reflexivity].
    now destruct (split_nonempty sep x).
Qed.

Lemma split_free sep w : freeOf sep w = true -> split sep w = [w].
Proof.
  induction w as [|c w IH]; simpl; [reflexivity|].
  intros H. apply andb_true_iff in H as [Hc Hw].
  apply negb_true_iff in Hc. rewrite Hc, (IH Hw). reflexivity.
Qed.

(** Splitting undoes joining, for segments free of the separator. *)
Lemma split_join sep ws :
  ws <> [] -> Forall (fun w => freeOf sep w = true) ws ->
  split sep (join [sep] ws) = ws.
Proof.
  induction ws as [|w ws IH]; [congruence|].
  intros _ H. inversion H as [|? ? Hw Hws]; subst.
  destruct ws as [|w' ws'].
  - simpl. now apply split_free.
  - change (join [sep] (w :: w' :: ws'))
      with (w ++ sep :: join [sep] (w' :: ws')).
    rewrite split_app_sep, (split_free sep w Hw), IH; [reflexivity|discriminate|assumption].
Qed.

(** The segments of a string hold no code unit that the string does not. *)
Lemma split_keeps_free c sep s :
  freeOf c s = true -> Forall (fun w => freeOf c w = true) (split sep s).
Proof.
  induction s as [|x s IH]; simpl.
  - intros _. repeat constructor.
  - intros H. apply andb_true_iff in H as [Hx Hs]. specialize (IH Hs).
    destruct (x =? sep)%N.
    + constructor; [reflexivity|assumption].
    + destruct (split sep s) as [|w ws]; [repeat constructor; simpl; now rewrite Hx|].
      inversion IH; subst. constructor; [simpl; now rewrite Hx|assumption].
Qed.

(** The segments of a string hold no separator. *)
Lemma split_segments_free sep s :
  Forall (fun w => freeOf sep w = true) (split sep s).
Proof.
  induction s as [|x s IH]; simpl.
  - repeat constructor.
  - destruct (x =? sep)%N eqn:Ex.
    + constructor; [reflexivity|assumption].
    + destruct (split sep s) as [|w ws];
        [repeat constructor; simpl; now rewrite Ex|].
      inversion IH; subst. constructor; [simpl; now rewrite Ex|assumption].
Qed.

Lemma freeOf_app c x y : freeOf c (x ++ y) = freeOf c x && freeOf c y.
Proof. apply forallb_app. Qed.

Lemma join_free c sep ws :
  (sep =? c)%N = false -> Forall (fun w => freeOf c w = true) ws ->
  freeOf c (join [sep] ws) = true.
Proof.
  intros Hsep. induction ws as [|w ws IH]; [reflexivity|].
  intros H. inversion H as [|? ? Hw Hws]; subst.
  destruct ws as [|w' ws']; [exact Hw|].
  change (join [sep] (w :: w' :: ws')) with (w ++ sep :: join [sep] (w' :: ws')).
  rewrite freeOf_app, Hw. simpl. rewrite Hsep. simpl. now apply IH.
Qed.

(** ASCII upper-casing gives no code unit under 65 that was not there. *)
Lemma asciiUpper_free c x :
  (c < 65)%N -> freeOf c x = true -> freeOf c (asciiUpper x) = true.
Proof.
  intros Hc. induction x as [|a x IH]; simpl; [reflexivity|].
  intros H. apply andb_true_iff in H as [Ha Hx]. rewrite (IH Hx), andb_true_r.
  apply negb_true_iff, N.eqb_neq. apply negb_true_iff, N.eqb_neq in Ha.
  destruct ((97 <=? a) && (a <=? 122))%N eqn:E; [|assumption].
  apply andb_true_iff in E as [E1 E2].
  apply N.leb_le in E1. lia.
Qed.

End SplitJoin.

(** ** More about trimming *)

Section TrimFacts.

Lemma trimStart_app_blank pre s :
  forallb isWhiteSpace pre = true -> trimStart (pre ++ s) = trimStart s.
Proof.
  induction pre as [|c pre IH]; simpl; [reflexivity|].
  intros H. apply andb_true_iff in H as [Hc Hpre]. rewrite Hc. now apply IH.
Qed.

Lemma trimStart_app s x :
  forallb isWhiteSpace s = false -> trimStart (s ++ x) = trimStart s ++ x.
Proof.
  induction s as [|c s IH]; simpl; [discriminate|].
  destruct (isWhiteSpace c); simpl; [exact IH|reflexivity].
Qed.

Lemma trimEnd_blank s : forallb isWhiteSpace s = true -> trimEnd s = [].
Proof.
  induction s as [|c s IH]; simpl; [reflexivity|].
  intros H. apply andb_true_iff in H as [Hc Hs]. now rewrite (IH Hs), Hc.
Qed.

Lemma trimEnd_app_blank s post :
  forallb isWhiteSpace post = true -> trimEnd (s ++ post) = trimEnd s.
Proof.
  intros H. induction s as [|c s IH]; simpl; [now apply trimEnd_blank|].
  now rewrite IH.
Qed.

(** White space around a string does not change what trimming leaves. *)
Lemma trim_surrounded pre s post :
  forallb isWhiteSpace pre = true -> forallb isWhiteSpace post = true ->
  trim (pre ++ s ++ post) = trim s.
Proof.
  intros Hpre Hpost. unfold trim. rewrite (trimStart_app_blank pre _ Hpre).
  destruct (forallb isWhiteSpace s) eqn:Hs.
  - rewrite (trimStart_blank s Hs), trimStart_blank; [reflexivity|].
    rewrite forallb_app. now rewrite Hs, Hpost.
  - rewrite (trimStart_app s post Hs). now apply trimEnd_app_blank.
Qed.

Lemma trimEnd_snoc x c :
  isWhiteSpace c = false -> trimEnd (x ++ [c]) = x ++ [c].
Proof.
  intros Hc. induction x as [|a x IH]; simpl; [now rewrite Hc|].
  rewrite IH. now destruct (x ++ [c]) eqn:E; [destruct x; discriminate|].
Qed.

(** Trimming leaves a string that neither starts nor ends with white space
    as it is. *)
Lemma trim_solid_ends first x last :
  first <> [] -> last <> [] -> solid first = true -> solid last = true ->
  trim (first ++ x ++ last) = first ++ x ++ last.
Proof.
  intros Hf Hl Sf Sl. unfold trim.
  destruct first as [|c f]; [congruence|].
  simpl in Sf. apply andb_true_iff in Sf as [Hc _]. apply negb_true_iff in Hc.
  simpl trimStart. rewrite Hc.
  destruct (exists_last Hl) as (l' & d & ->).
  unfold solid in Sl. rewrite forallb_app in Sl.
  apply andb_true_iff in Sl as [_ Hd]. simpl in Hd. rewrite andb_true_r in Hd.
  apply negb_true_iff in Hd.
  change ((c :: f) ++ x ++ l' ++ [d]) with (c :: (f ++ x ++ l' ++ [d])).
  replace (c :: f ++ x ++ l' ++ [d]) with ((c :: f ++ x ++ l') ++ [d])
    by (simpl; now rewrite <- !app_assoc).
  now apply trimEnd_snoc.
Qed.

Lemma solid_freeOf_space w : solid w = true -> freeOf space w = true.
Proof.
  unfold solid, freeOf. induction w as [|c w IH]; simpl; [reflexivity|].
  intros H. apply andb_true_iff in H as [Hc Hw]. rewrite (IH Hw), andb_true_r.
  apply negb_true_iff, N.eqb_neq. intros ->.
  now apply negb_true_iff in Hc.
Qed.

Lemma filterBoolean_app xs ys :
  filterBoolean (xs ++ ys) = filterBoolean xs ++ filterBoolean ys.
Proof. apply List.filter_app. Qed.

Lemma last_snoc (xs : list jsstring) w : List.last (xs ++ [w]) [] = w.
Proof. apply last_last. Qed.

End TrimFacts.

(** ** More about [string-utils.ts] *)

Section MoreStringTheorems.

Variable up : jsstring -> jsstring.

Lemma capitalizeWord_free c w :
  (forall x, freeOf c x = true -> freeOf c (up x) = true) ->
  freeOf c w = true -> freeOf c (StringUtils.capitalizeWord up w) = true.
Proof.
  intros Hup Hw. unfold StringUtils.capitalizeWord, charAt0, slice1.
  rewrite freeOf_app.
  destruct w as [|a w]; cbn [take drop].
  - rewrite (Hup [] eq_refl). reflexivity.
  - simpl in Hw. apply andb_true_iff in Hw as [Ha Hw].
    rewrite Hup; [exact Hw|]. simpl. now rewrite Ha.
Qed.

Lemma capitalized_segments_free c sep s :
  (forall x, freeOf c x = true -> freeOf c (up x) = true) ->
  Forall (fun w => freeOf c w = true) (split sep s) ->
  Forall (fun w => freeOf c w = true)
    (map (StringUtils.capitalizeWord up) (split sep s)).
Proof.
  intros Hup H. induction H as [|w ws Hw _ IH]; simpl; constructor;
    [now apply capitalizeWord_free|exact IH].
Qed.

(** X1: on a slug that is not blank and holds no space, the words of the
    result (split at the spaces) are the hyphen-separated segments of the
    slug, in order, each one capitalized as [capitalizeFirstLetter] does. *)
Theorem slugToString_words
    (Hnil : up [] = [])
    (Hup : forall x, freeOf space x = true -> freeOf space (up x) = true)
    (slug : jsstring) :
  falsy (trim slug) = false -> freeOf space slug = true ->
  split space (StringUtils.slugToString up slug)
  = map (StringUtils.capitalizeFirstLetter up) (split hyphen slug).
Proof using Type.
  intros Hnb Hfree. unfold StringUtils.slugToString. rewrite Hnb.
  rewrite split_join.
  - apply map_ext. intros [|c w]; [|reflexivity].
    unfold StringUtils.capitalizeWord, charAt0, slice1. cbn [take drop].
    now rewrite Hnil.
  - pose proof (split_nonempty hyphen slug) as Hne.
    destruct (split hyphen slug); [congruence|discriminate].
  - apply capitalized_segments_free; [exact Hup|].
    now apply split_keeps_free.
Qed.

(** X2: a blank slug is returned as it is; the result for any other slug
    holds no hyphen. *)
Theorem slugToString_no_hyphen
    (Hup : forall x, freeOf hyphen x = true -> freeOf hyphen (up x) = true)
    (slug : jsstring) :
  if falsy (trim slug) then StringUtils.slugToString up slug = slug
  else freeOf hyphen (StringUtils.slugToString up slug) = true.
Proof using Type.
  unfold StringUtils.slugToString. destruct (falsy (trim slug)); [reflexivity|].
  apply join_free; [reflexivity|].
  apply capitalized_segments_free; [exact Hup|apply split_segments_free].
Qed.

(** X3: capitalizing twice is capitalizing once, as soon as the upper case of
    a character starts with a character that is its own upper case. *)
Theorem capitalizeFirstLetter_idempotent
    (Hup : forall c, exists c' u, up [c] = c' :: u /\ up [c'] = [c'])
    (str : jsstring) :
  StringUtils.capitalizeFirstLetter up (StringUtils.capitalizeFirstLetter up str)
  = StringUtils.capitalizeFirstLetter up str.
Proof using Type.
  destruct str as [|c r]; [reflexivity|].
  change (StringUtils.capitalizeFirstLetter up (c :: r)) with (up [c] ++ r).
  destruct (Hup c) as (c' & u & E & E'). rewrite E.
  change (StringUtils.capitalizeFirstLetter up ((c' :: u) ++ r))
    with (up [c'] ++ (u ++ r)).
  now rewrite E'.
Qed.

(** X4: white space before and after a name does not change its initials
    (nor whether the function throws). *)
Theorem nameInitials_ignores_surrounding_space (pre fullName post : jsstring) :
  forallb isWhiteSpace pre = true -> forallb isWhiteSpace post = true ->
  StringUtils.nameInitials up (pre ++ fullName ++ post)
  = StringUtils.nameInitials up fullName.
Proof.
  intros Hpre Hpost. unfold StringUtils.nameInitials, StringUtils.splitedName.
  now rewrite (trim_surrounded pre fullName post Hpre Hpost).
Qed.

(** X5: the initials are those of the first and the last word; whatever
    stands between them, middle names or more spaces, does not count. *)
Theorem nameInitials_ignores_middle (first middle last : jsstring) :
  first <> [] -> last <> [] -> solid first = true -> solid last = true ->
  StringUtils.nameInitials up (first ++ (space :: middle ++ [space]) ++ last)
  = Normal (up (charAt0 first) ++ up (charAt0 last))
  /\ StringUtils.nameInitials up (first ++ [space] ++ last)
     = Normal (up (charAt0 first) ++ up (charAt0 last)).
Proof.
  intros Hf Hl Sf Sl.
  pose proof (split_free space first (solid_freeOf_space first Sf)) as Ef.
  pose proof (split_free space last (solid_freeOf_space last Sl)) as El.
  assert (Bf : filterBoolean [first] = [first]) by (destruct first; [congruence|reflexivity]).
  assert (Bl : filterBoolean [last] = [last]) by (destruct last; [congruence|reflexivity]).
  split.
  - assert (E : StringUtils.splitedName (first ++ (space :: middle ++ [space]) ++ last)
                = first :: (filterBoolean (split space middle) ++ [last])).
    { unfold StringUtils.splitedName.
      rewrite (trim_solid_ends first _ last Hf Hl Sf Sl).
      replace (first ++ (space :: middle ++ [space]) ++ last)
        with (first ++ space :: (middle ++ space :: last))
        by (simpl; now rewrite <- app_assoc).
      rewrite !split_app_sep, Ef, El, !filterBoolean_app, Bf, Bl. reflexivity. }
    rewrite (nameInitials_of_segments up _ _ _ E), last_snoc.
    now destruct (filterBoolean (split space middle)).
  - assert (E : StringUtils.splitedName (first ++ [space] ++ last) = [first; last]).
    { unfold StringUtils.splitedName.
      rewrite (trim_solid_ends first _ last Hf Hl Sf Sl).
      change (first ++ [space] ++ last) with (first ++ space :: last).
      rewrite split_app_sep, Ef, El, filterBoolean_app, Bf, Bl. reflexivity. }
    now rewrite (nameInitials_of_segments up _ _ _ E).
Qed.

End MoreStringTheorems.

Lemma asciiUpper_fixed c :
  exists c' u, asciiUpper [c] = c' :: u /\ asciiUpper [c'] = [c'].
Proof.
  unfold asciiUpper. simpl.
  destruct ((97 <=? c) && (c <=? 122))%N eqn:E.
  - exists (c - 32)%N, []. split; [reflexivity|].
    apply andb_true_iff in E as [E1 E2]. apply N.leb_le in E1, E2.
    replace ((97 <=? c - 32) && (c - 32 <=? 122))%N with false; [reflexivity|].
    symmetry. apply andb_false_iff. left. apply N.leb_gt. lia.
  - exists c, []. now rewrite E.
Qed.

Lemma slugToString_words_witness :
  split space (StringUtils.slugToString asciiUpper (lit "hello-big-world"))
  = [lit "Hello"; lit "Big"; lit "World"].
Proof.
  rewrite (slugToString_words asciiUpper eq_refl
             (fun x => asciiUpper_free space x eq_refl)
             (lit "hello-big-world") eq_refl eq_refl).
  reflexivity.
Defined.

Lemma slugToString_no_hyphen_witness :
  freeOf hyphen (StringUtils.slugToString asciiUpper (lit "a--b-")) = true.
Proof.
  exact (slugToString_no_hyphen asciiUpper
           (fun x => asciiUpper_free hyphen x eq_refl) (lit "a--b-")).
Defined.

Lemma capitalizeFirstLetter_idempotent_witness :
  StringUtils.capitalizeFirstLetter asciiUpper
    (StringUtils.capitalizeFirstLetter asciiUpper (lit "kanhu"))
  = StringUtils.capitalizeFirstLetter asciiUpper (lit "kanhu").
Proof.
  exact (capitalizeFirstLetter_idempotent asciiUpper asciiUpper_fixed (lit "kanhu")).
Defined.

Lemma nameInitials_ignores_surrounding_space_witness :
  StringUtils.nameInitials asciiUpper ([9; 32]%N ++ lit "John Doe" ++ [10]%N)
  = StringUtils.nameInitials asciiUpper (lit "John Doe").
Proof.
  exact (nameInitials_ignores_surrounding_space asciiUpper
           [9; 32]%N (lit "John Doe") [10]%N eq_refl eq_refl).
Defined.

Lemma nameInitials_ignores_middle_witness :
  StringUtils.nameInitials asciiUpper
    (lit "Mary" ++ (space :: lit "Jane  van" ++ [space]) ++ lit "Watson")
  = Normal (lit "MW").
Proof.
  refine (proj1 (nameInitials_ignores_middle asciiUpper
                   (lit "Mary") (lit "Jane  van") (lit "Watson") _ _ eq_refl eq_refl));
    discriminate.
Defined.

(** ** More about [date-utils.ts] *)

(** The milliseconds of so many days, hours, minutes, seconds and
    milliseconds. *)
Lemma units_recovered (d h m s ms : Z) :
  (0 <= d -> 0 <= h < 24 -> 0 <= m < 60 -> 0 <= s < 60 -> 0 <= ms < 1000 ->
   let total := (((d * 24 + h) * 60 + m) * 60 + s) * 1000 + ms in
   total / 86400000 = d
   /\ Z.rem total 86400000 / 3600000 = h
   /\ Z.rem total 3600000 / 60000 = m
   /\ Z.rem total 60000 / 1000 = s)%Z.
Proof.
  intros Hd Hh Hm Hs Hms total.
  assert (Ht : (0 <= total)%Z) by (unfold total; lia).
  rewrite !Z.rem_mod_nonneg by lia.
  unfold total. repeat split; Z.div_mod_to_equations; lia.
Qed.

(** The distance between an instant and the instant so much later. *)
Lemma recovered_distance (t d h m s ms : Z) :
  (0 <= d -> 0 <= h < 24 -> 0 <= m < 60 -> 0 <= s < 60 -> 0 <= ms < 1000 ->
   let total := (((d * 24 + h) * 60 + m) * 60 + s) * 1000 + ms in
   Z.abs (t + total - t) = total /\ 0 <= total)%Z.
Proof. intros. lia. Qed.

Section MoreDateTheorems.

Import DateUtils.

Variable Date_parse : string -> JsDate.

Local Abbreviation timeDifference := (DateUtils.timeDifference Date_parse).

(** X6: the order of the two dates does not matter, neither for the
    difference nor for the error. *)
Theorem timeDifference_symmetric (date1 date2 : DateInput) :
  timeDifference date1 date2 = timeDifference date2 date1.
Proof.
  rewrite !timeDifference_instants.
  destruct (DateUtils.new_Date Date_parse date1) as [t1|],
           (DateUtils.new_Date Date_parse date2) as [t2|]; try reflexivity.
  now rewrite (abs_sub_sym t1 t2).
Qed.

(** X7: the difference between an instant and the instant so many days,
    hours, minutes, seconds and milliseconds later, less than 2^53
    milliseconds in all, gives back the days, the hours, the minutes and the
    seconds; the milliseconds are dropped. *)
Theorem timeDifference_recovers_units (t d h m s ms : Z) :
  (0 <= d)%Z -> (0 <= h < 24)%Z -> (0 <= m < 60)%Z -> (0 <= s < 60)%Z ->
  (0 <= ms < 1000)%Z ->
  ((((d * 24 + h) * 60 + m) * 60 + s) * 1000 + ms < 2 ^ 53)%Z ->
  timeDifference
    (DateObject (Some (t + ((((d * 24 + h) * 60 + m) * 60 + s) * 1000 + ms))%Z))
    (DateObject (Some t))
  = Normal (mkDifference d h m s).
Proof.
  intros Hd Hh Hm Hs Hms Hnear.
  destruct (units_recovered d h m s ms Hd Hh Hm Hs Hms) as (E1 & E2 & E3 & E4).
  destruct (recovered_distance t d h m s ms Hd Hh Hm Hs Hms) as [E Hpos].
  assert (Hn : (Z.abs (t + ((((d * 24 + h) * 60 + m) * 60 + s) * 1000 + ms) - t)
                < 2 ^ 53)%Z) by (rewrite E; exact Hnear).
  rewrite (timeDifference_near Date_parse (DateObject (Some _)) (DateObject (Some t))
             _ t eq_refl eq_refl Hn).
  now rewrite E, E1, E2, E3, E4.
Qed.

End MoreDateTheorems.

Lemma timeDifference_recovers_units_witness :
  DateUtils.timeDifference (fun _ => None)
    (DateUtils.DateObject
       (Some (1755342000000 + ((((2 * 24 + 3) * 60 + 4) * 60 + 5) * 1000 + 678))%Z))
    (DateUtils.DateObject (Some 1755342000000%Z))
  = Normal (DateUtils.mkDifference 2 3 4 5).
Proof.
  apply (timeDifference_recovers_units (fun _ => None) 1755342000000 2 3 4 5 678); lia.
Defined.

(** ** More about [use-local-storage.tsx] *)

Section MoreLocalStorageTheorems.

Import UseLocalStorage.

Context {T : Type}.
Variable JSON_stringify : T -> option string.
Variable JSON_parse : string -> option T.
Variable accepts : gmap string string -> string -> string -> bool.

Local Abbreviation readValue := (UseLocalStorage.readValue JSON_parse).
Local Abbreviation setValue := (UseLocalStorage.setValue JSON_stringify accepts).
Local Abbreviation handleStorage := (UseLocalStorage.handleStorage JSON_parse).
Local Abbreviation writable := (UseLocalStorage.writable accepts).
Local Abbreviation stored := (Stored.stored JSON_parse).

Lemma readValue_stored key v0 b :
  exists evs, readValue key v0 b = (Normal (stored key v0 b), after b evs).
Proof.
  unfold Stored.stored. destruct (blocked b) as [error|] eqn:Ha.
  - eexists. eapply readValue_blocked; eassumption.
  - destruct (truthy (items b !! key)) as [text|] eqn:Ht.
    + destruct (JSON_parse text) as [v|] eqn:Hp; eexists.
      * eapply readValue_parsed; eassumption.
      * eapply readValue_malformed; eassumption.
    + eexists. eapply readValue_falsy; eassumption.
Qed.

Lemma stored_after key v0 b evs : stored key v0 (after b evs) = stored key v0 b.
Proof. reflexivity. Qed.

(** What a write does, whether it goes through or not. *)
Lemma setValue_outcome key sv value st b :
  exists b',
    setValue key sv value (st, b) = (Normal tt, (valueToStore value sv, b'))
    /\ blocked b' = blocked b
    /\ (items b' = items b
        \/ exists text,
             JSON_stringify (valueToStore value sv) = Some text
             /\ writable b key text = true
             /\ items b' = <[key := text]> (items b)).
Proof.
  assert (F : match JSON_stringify (valueToStore value sv) with
              | Some text => writable b key text = false
              | None => True
              end ->
              exists b',
                setValue key sv value (st, b)
                = (Normal tt, (valueToStore value sv, b'))
                /\ blocked b' = blocked b /\ items b' = items b).
  { intros Hfail.
    destruct (setValue_failed JSON_stringify accepts key sv value st b Hfail)
      as [evs E].
    exists (after b evs). now rewrite E. }
  destruct (JSON_stringify (valueToStore value sv)) as [text|] eqn:Hs.
  - destruct (writable b key text) eqn:Hq.
    + pose proof Hq as Hq'. unfold UseLocalStorage.writable in Hq'.
      destruct (blocked b) eqn:Ha; [discriminate|].
      eexists.
      rewrite (setValue_stored JSON_stringify accepts key sv value st b text Hs Ha Hq').
      split; [reflexivity|]. split; [reflexivity|]. right. now exists text.
    + destruct (F eq_refl) as (b' & E & Hb & Hi). exists b'. auto.
  - destruct (F I) as (b' & E & Hb & Hi). exists b'. auto.
Qed.

(** X8: two tabs. When one instance sets a serializable value and the write
    goes through, the [storage] event for the key makes a second instance on
    the same key, whatever its own value and initial value, hold that value;
    handling the event does not write to the store. *)
Theorem storage_event_syncs (Hempty : JSON_parse "" = None)
    key storedValueA value stA stB v0B b text :
  let v := valueToStore value storedValueA in
  JSON_stringify v = Some text -> JSON_parse text = Some v ->
  writable b key text = true ->
  exists b1 b2,
    setValue key storedValueA value (stA, b) = (Normal tt, (v, b1))
    /\ handleStorage key v0B (Some key) (stB, b1) = (Normal tt, (v, b2))
    /\ items b2 = items b1.
Proof using Type.
  intros v Hs Hp Hq. subst v. unfold UseLocalStorage.writable in Hq.
  destruct (blocked b) eqn:Ha; [discriminate|].
  eexists _, _.
  rewrite (setValue_stored JSON_stringify accepts key storedValueA value stA b text
             Hs Ha Hq).
  split; [reflexivity|].
  rewrite handleStorage_sync. rewrite decide_True by reflexivity.
  erewrite readValue_parsed; [split; reflexivity|reflexivity| |exact Hp].
  simpl. rewrite lookup_insert_eq. apply truthy_Some. split; [reflexivity|].
  intros ->. congruence.
Qed.

(** X9: when another tab has removed the key, or has written a text that does
    not deserialize, the [storage] event for the key puts the instance back
    to its initial value: the value it held is lost. An event for another
    key, or without a key (the other tab cleared the storage), is ignored. *)
Theorem storage_event_resets key v0 st b :
  blocked b = None ->
  match items b !! key with
  | Some text => JSON_parse text = None
  | None => True
  end ->
  (exists evs,
     handleStorage key v0 (Some key) (st, b) = (Normal tt, (v0, after b evs)))
  /\ (forall eventKey, eventKey <> Some key ->
      handleStorage key v0 eventKey (st, b) = (Normal tt, (st, b))).
Proof.
  intros Ha Hi. split.
  - rewrite handleStorage_sync. rewrite decide_True by reflexivity.
    destruct (readValue_stored key v0 b) as [evs E]. rewrite E.
    assert (Hv : stored key v0 b = v0).
    { unfold Stored.stored. rewrite Ha.
      destruct (truthy (items b !! key)) as [text|] eqn:Ht; [|reflexivity].
      apply truthy_Some in Ht as [Ht _]. rewrite Ht in Hi. now rewrite Hi. }
    rewrite Hv. exists (evs ++ [SetState v0]).
    unfold after. simpl. now rewrite <- app_assoc.
  - intros eventKey Hne. rewrite handleStorage_sync.
    now rewrite decide_False.
Qed.

(** X10: the setter writes under its own key only: whatever is stored under
    another key stays, and the setter does not change whether the storage
    can be reached. *)
Theorem setValue_other_keys key key' storedValue value st b :
  key' <> key ->
  items (snd (snd (setValue key storedValue value (st, b)))) !! key'
  = items b !! key'
  /\ blocked (snd (snd (setValue key storedValue value (st, b)))) = blocked b.
Proof.
  intros Hne.
  destruct (setValue_outcome key storedValue value st b) as (b' & E & Hb & Hi).
  rewrite E. simpl. split; [|exact Hb].
  destruct Hi as [->|(text & _ & _ & ->)]; [reflexivity|].
  now rewrite lookup_insert_ne.
Qed.

(** X11: when the value cannot be serialized, or the write does not go
    through, the setter still returns with the cell holding the new value,
    but the store is as before: a fresh instance reads what it would have
    read before the call, not the new value. *)
Theorem setValue_failed_write_diverges key storedValue value st b :
  match JSON_stringify (valueToStore value storedValue) with
  | Some text => writable b key text = false
  | None => True
  end ->
  exists b',
    setValue key storedValue value (st, b)
    = (Normal tt, (valueToStore value storedValue, b'))
    /\ items b' = items b
    /\ forall key' v0,
         fst (readValue key' v0 b') = fst (readValue key' v0 b).
Proof.
  intros Hfail.
  destruct (setValue_failed JSON_stringify accepts key storedValue value st b Hfail)
    as [evs E].
  exists (after b evs). split; [exact E|]. split; [reflexivity|].
  intros key' v0.
  destruct (readValue_stored key' v0 (after b evs)) as [evs1 ->].
  destruct (readValue_stored key' v0 b) as [evs2 ->].
  reflexivity.
Qed.

(** X12: reading does not write: the store is the same after a read, and a
    second read returns what the first one returned. *)
Theorem readValue_repeatable key v0 b :
  items (snd (readValue key v0 b)) = items b
  /\ blocked (snd (readValue key v0 b)) = blocked b
  /\ fst (readValue key v0 (snd (readValue key v0 b))) = fst (readValue key v0 b).
Proof.
  destruct (readValue_stored key v0 b) as [evs E]. rewrite E. simpl.
  repeat split.
  destruct (readValue_stored key v0 (after b evs)) as [evs' ->].
  reflexivity.
Qed.

End MoreLocalStorageTheorems.

(** *** The two tabs on the scalar instance *)

Section MoreScalarInstance.

Import UseLocalStorage ScalarJson.

Lemma storage_event_syncs_witness :
  exists b1 b2,
    setValue stringify accepts "count" JNull (Value (JNum 42)) (JNull, fresh)
    = (Normal tt, (JNum 42, b1))
    /\ handleStorage parse "count" (JNum 0) (Some "count") (JBool true, b1)
       = (Normal tt, (JNum 42, b2)).
Proof.
  destruct (storage_event_syncs stringify parse accepts parse_empty "count"
              JNull (Value (JNum 42)) JNull (JBool true) (JNum 0) fresh "42"
              eq_refl eq_refl eq_refl) as (b1 & b2 & E1 & E2 & _).
  now exists b1, b2.
Defined.

Lemma storage_event_resets_witness :
  (exists evs,
     handleStorage parse "count" (JNum 0) (Some "count") (JNum 42, holding "4 2")
     = (Normal tt, (JNum 0, after (holding "4 2") evs)))
  /\ handleStorage parse "count" (JNum 0) None (JNum 42, fresh)
     = (Normal tt, (JNum 42, fresh)).
Proof.
  split.
  - apply (storage_event_resets parse "count" (JNum 0) (JNum 42) (holding "4 2"));
      reflexivity.
  - apply (storage_event_resets parse "count" (JNum 0) (JNum 42) fresh);
      [reflexivity|exact I|discriminate].
Defined.

Lemma setValue_other_keys_witness :
  items (snd (snd (setValue stringify accepts "theme" JNull (Value (JBool true))
                     (JNull, holding "42")))) !! "count" = Some "42".
Proof.
  rewrite (proj1 (setValue_other_keys stringify accepts "theme" "count"
                    JNull (Value (JBool true)) JNull (holding "42")
                    ltac:(discriminate))).
  reflexivity.
Defined.

Lemma setValue_failed_write_diverges_witness :
  exists b',
    setValue stringify accepts "count" (JNum 41) (Value (JNum (10 ^ 20)))
      (JNum 41, holding "41")
    = (Normal tt, (JNum (10 ^ 20), b'))
    /\ fst (readValue parse "count" JNull b') = Normal (JNum 41).
Proof.
  destruct (setValue_failed_write_diverges stringify parse accepts "count"
              (JNum 41) (Value (JNum (10 ^ 20))) (JNum 41) (holding "41") eq_refl)
    as (b' & E & _ & R).
  exists b'. split; [exact E|]. now rewrite R.
Defined.

End MoreScalarInstance.

(** ** More about the scroll-threshold hook *)

Section MoreScrollTheorems.

Import UseScroll.

(** Every step other than a scroll event keeps the flag. *)
Lemma step_keeps_flag p a :
  match a with Scroll _ => False | _ => True end ->
  useScroll (step p a) = useScroll p.
Proof.
  destruct a as [o|t|]; intros H; [destruct H| |reflexivity].
  simpl. now destruct (listener (hook p)).
Qed.

(** Once the listener is removed, no step brings it back or changes the flag. *)
Lemma step_unmounted p a :
  listener (hook p) = None ->
  listener (hook (step p a)) = None /\ useScroll (step p a) = useScroll p.
Proof.
  intros H. destruct a as [o|t|]; simpl; rewrite ?H; simpl; auto.
Qed.

(** X13: only scroll events change the flag: through any sequence of
    re-renders with new thresholds and of unmounts it stays what it was, so a
    hook that has seen no scroll event reports [false]. *)
Theorem useScroll_changes_only_on_scroll (p : Page) (acts : list Action) :
  Forall (fun a => match a with Scroll _ => False | _ => True end) acts ->
  useScroll (run p acts) = useScroll p
  /\ forall threshold offset,
       p = mount threshold offset -> useScroll (run p acts) = false.
Proof.
  intros H.
  assert (E : useScroll (run p acts) = useScroll p).
  { revert p. induction H as [|a acts Ha _ IH]; intros p; [reflexivity|].
    change (run p (a :: acts)) with (run (step p a) acts).
    rewrite IH. now apply step_keeps_flag. }
  split; [exact E|]. intros threshold offset ->. now rewrite E.
Qed.

(** X14: after the component is unmounted the listener is gone: no later
    scroll event or re-render changes the flag. *)
Theorem useScroll_frozen_after_unmount (p : Page) (acts : list Action) :
  useScroll (run p (Unmount :: acts)) = useScroll p
  /\ active (run p (Unmount :: acts)) = false.
Proof.
  assert (G : forall q, listener (hook q) = None ->
                useScroll (run q acts) = useScroll q
                /\ listener (hook (run q acts)) = None).
  { induction acts as [|a acts IH]; intros q Hq; [now split|].
    destruct (step_unmounted q a Hq) as [Hl Hf].
    destruct (IH (step q a) Hl) as [E1 E2].
    change (run q (a :: acts)) with (run (step q a) acts).
    now rewrite E1, E2, Hf. }
  destruct (G (step p Unmount) eq_refl) as [E1 E2].
  change (run p (Unmount :: acts)) with (run (step p Unmount) acts).
  unfold active. now rewrite E1, E2.
Qed.

End MoreScrollTheorems.

Lemma useScroll_changes_only_on_scroll_witness :
  UseScroll.useScroll
    (UseScroll.run (UseScroll.mount (num 100) (num 500))
       [UseScroll.Rerender (num 50); UseScroll.Rerender (num 0)])
  = false.
Proof.
  refine (proj2 (useScroll_changes_only_on_scroll
                   (UseScroll.mount (num 100) (num 500))
                   [UseScroll.Rerender (num 50); UseScroll.Rerender (num 0)] _)
            (num 100) (num 500) eq_refl).
  repeat constructor.
Defined.
